(** * adobe/pipeline-go: the envelope streaming engine

    A shallow embedding of [pipeline/stream.go] and of the declarations of
    [pipeline/receive.go] and [pipeline/client.go] it relies on: the data
    model ([Message], [Envelope], [EnvelopeOrError], [ReceiveRequest]), the
    decoder ([decodeEnvelope], [decodeEnvelopes]), the fused envelope stream
    with its heartbeat deadline ([envelopeStream]) and the two versions of
    the reconnecting supervisor ([reconnectStream]).

    Goroutines are embedded as labelled transition functions: a state holds
    the local variables of the goroutine, a label names the [select] case
    that fires (with the value of [time.Now()] at that instant), and the
    function returns [None] when that case is not ready in that state.
    Wall-clock instants and durations are integers (nanoseconds).

    The stages of the first revision of [stream.go] ([envelopeStream],
    [pingFilter], [endOfStreamFilter]) are embedded the same way, in the
    module [Filters]. The rest of the client ([NewClient], the addresses,
    [Sync], [Send], [receive], [newError]) is embedded as functions that
    run against an environment (the URL and JSON libraries, the token
    getter, the transport) and return, with their result, the trace of
    what they did with it. *)

From Stdlib Require Import ZArith List String Ascii DecimalString Bool Lia.
Import ListNotations.
Set Warnings "-register-all".
Open Scope string_scope.
Open Scope list_scope.
Open Scope Z_scope.

(** ** Time ([time.Duration], [time.Time]) *)

Definition Duration := Z.
Definition Time := Z.

Definition Millisecond : Duration := 1000000.
Definition Second : Duration := 1000 * Millisecond.

(** [time.Time{}], the value of [var deadline time.Time]: an instant that
    lies before every reading of the clock. Clock readings are positive. *)
Definition zeroTime : Time := 0.

Definition Add (t : Time) (d : Duration) : Time := t + d.
Definition Sub (t u : Time) : Duration := t - u.
Definition Before (t u : Time) : bool := t <? u.

(** ** Errors *)

(** The [error] values the core handles: the sentinel [io.EOF], compared by
    identity in [envelopeStream], and every other error, known by its text
    (a JSON syntax or type error, [io.ErrUnexpectedEOF], a transport error,
    the result of [fmt.Errorf]). *)
Inductive error : Type :=
| io_EOF
| errorString (msg : string).

Definition Error (e : error) : string :=
  match e with
  | io_EOF => "EOF"
  | errorString msg => msg
  end.

(** [fmt.Errorf(prefix + ": %v", err)] *)
Definition Errorf (prefix : string) (err : error) : error :=
  errorString (prefix ++ ": " ++ Error err)%string.

(** ** JSON values, as [encoding/json] sees them after scanning *)

Inductive number : Type :=
| IntLit (z : Z)             (* an integer literal *)
| RealLit (text : string).   (* a literal with a fraction or an exponent *)

Inductive json : Type :=
| JNull
| JBool (b : bool)
| JNumber (n : number)
| JString (s : string)
| JArray (items : list json)
| JObject (members : list (string * json)).

(** ** Data model (client.go, receive.go) *)

(** [type Message struct]; [Locations] is a slice ([None] is the nil slice)
    and [Value] a [json.RawMessage] ([None] is nil, [Some v] the text of the
    JSON value [v]). *)
Record Message : Type := mkMessage {
  ImsOrg : string;
  Key : string;
  Locations : option (list string);
  Source : string;
  Value : option json
}.

(** [type Envelope struct]; [Partition] and [Offset] are [int],
    [CreateTime] is [uint64]. *)
Record Envelope : Type := mkEnvelope {
  Type_ : string;
  Partition : Z;
  EnvelopeKey : string;
  Offset : Z;
  Topic : string;
  CreateTime : Z;
  Message_ : Message;
  SyncMarker : string
}.

(** [type EnvelopeOrError struct], a pointer to an [Envelope] and an [error]:
    a nil pointer and a nil interface are [None]. *)
Record EnvelopeOrError : Type := mkUnit {
  Env : option Envelope;
  Err : option error
}.

(** An envelope of a given type, every other field zero, as
    [&Envelope{Type: ty}]. *)
Definition envelopeOfType (ty : string) : Envelope :=
  mkEnvelope ty 0 "" 0 "" 0 (mkMessage "" "" None "" None) "".

(** "Only one of this struct field will be non-nil at any given time." *)
Definition exactly_one (u : EnvelopeOrError) : Prop :=
  (Env u <> None /\ Err u = None) \/ (Env u = None /\ Err u <> None).

Definition exactly_oneb (u : EnvelopeOrError) : bool :=
  match Env u, Err u with
  | Some _, None => true
  | None, Some _ => true
  | _, _ => false
  end.

(** ** Receive options (receive.go) *)

Record ReceiveRequest : Type := mkReceiveRequest {
  SyncInterval : Duration;
  Organizations : option (list string);
  Sources : option (list string);
  Reset : Z;
  ReconnectionDelay : Duration;
  PingTimeout : Duration
}.

Definition reconnectionDelay (r : ReceiveRequest) : Duration :=
  if 0 <? ReconnectionDelay r then ReconnectionDelay r else 5 * Second.

Definition pingTimeout (r : ReceiveRequest) : Duration :=
  if 0 <? PingTimeout r then PingTimeout r else 90 * Second.


(** ** Envelopes on the wire

    The [json] tags of [Envelope] and [Message] name the members that
    [encoding/json] reads a field from and writes it to. What the library
    does with them is written out on scanned values: a member is matched to
    a field by its exact name, else by a name that is equal under case
    folding; members that match no field are skipped; [null] leaves a
    string, an integer or a struct as it is, makes a slice nil and fills a
    [json.RawMessage] with the text [null]; the first mismatch of types is
    the error of the whole value. *)

Definition bind {A B : Type} (x : A + error) (f : A -> B + error) : B + error :=
  match x with
  | inl a => f a
  | inr err => inr err
  end.

Definition jsonKind (v : json) : string :=
  match v with
  | JNull => "null"
  | JBool _ => "bool"
  | JNumber _ => "number"
  | JString _ => "string"
  | JArray _ => "array"
  | JObject _ => "object"
  end.

Definition typeError (v : json) (goType : string) : error :=
  errorString ("json: cannot unmarshal " ++ jsonKind v
               ++ " into Go value of type " ++ goType)%string.

Definition minInt : Z := - 2 ^ 63.
Definition maxInt : Z := 2 ^ 63 - 1.

Definition unmarshalString (v : json) (old : string) : string + error :=
  match v with
  | JNull => inl old
  | JString s => inl s
  | _ => inr (typeError v "string")
  end.

Definition unmarshalInt (v : json) (old : Z) : Z + error :=
  match v with
  | JNull => inl old
  | JNumber (IntLit z) =>
      if (minInt <=? z) && (z <=? maxInt) then inl z
      else inr (typeError v "int")
  | _ => inr (typeError v "int")
  end.




(** The members of an object, in their order, each set on the struct. *)
Fixpoint unmarshalMembers {S : Type} (set : S -> string * json -> S + error)
    (members : list (string * json)) (s : S) : S + error :=
  match members with
  | [] => inl s
  | member :: rest => bind (set s member) (unmarshalMembers set rest)
  end.



Section Wire.
Variable EqualFold : string -> string -> bool.

(** The tag a member name stands for. *)
Definition fieldNamed (tags : list string) (name : string) : option string :=
  match find (String.eqb name) tags with
  | Some tag => Some tag
  | None => find (EqualFold name) tags
  end.






End Wire.

(** [json.Marshal] of a message: [omitempty] leaves out an empty string and
    an empty or nil slice; a nil [Value] is written as [null]. *)
Definition omitempty (tag s : string) : list (string * json) :=
  if String.eqb s "" then [] else [(tag, JString s)].

Definition marshalMessage (m : Message) : list (string * json) :=
  omitempty "imsOrg" (ImsOrg m) ++
  omitempty "key" (Key m) ++
  match Locations m with
  | Some (x :: l) => [("locations", JArray (map JString (x :: l)))]
  | _ => []
  end ++
  omitempty "source" (Source m) ++
  [("value", match Value m with Some v => v | None => JNull end)].














(** ** The decoder (stream.go, decodeEnvelope and decodeEnvelopes)

    [encoding/json] is a library: a [json.Decoder] is any state [D] with a
    [Decode] that either fills an [Envelope] or returns an error. *)

Section Decoder.
Variable D : Type.
Variable Decode : D -> (Envelope + error) * D.

(** [func decodeEnvelope(decoder)]: a nil envelope with the error of
    [Decode], or the decoded envelope with a nil error. *)
Definition decodeEnvelope (decoder : D) : (option Envelope * option error) * D :=
  match Decode decoder with
  | (inr err, decoder') => ((None, Some err), decoder')
  | (inl envelope, decoder') => ((Some envelope, None), decoder')
  end.

(** The unit [decodeEnvelopes] offers on its channel in one turn of its
    loop: [EnvelopeOrError{Envelope: envelope, Err: err}]. *)
Definition decodeEnvelopes_offer (decoder : D) : EnvelopeOrError * D :=
  let '((envelope, err), decoder') := decodeEnvelope decoder in
  (mkUnit envelope err, decoder').

(** The units [decodeEnvelopes] offers in its first [n] turns (each turn
    ends with [continue], whatever was decoded). *)
Fixpoint decodeEnvelopes (n : nat) (decoder : D) : list EnvelopeOrError :=
  match n with
  | O => []
  | S n' =>
      let '(u, decoder') := decodeEnvelopes_offer decoder in
      u :: decodeEnvelopes n' decoder'
  end.
End Decoder.

Arguments decodeEnvelope {D} Decode decoder.
Arguments decodeEnvelopes_offer {D} Decode decoder.
Arguments decodeEnvelopes {D} Decode n decoder.

(** ** The envelope stream (stream.go, envelopeStream) *)

Definition isType (ty : string) (u : EnvelopeOrError) : bool :=
  match Env u with
  | Some e => String.eqb (Type_ e) ty
  | None => false
  end.

(** [envelope.Envelope != nil && envelope.Envelope.Type == "PING"] *)
Definition isPing : EnvelopeOrError -> bool := isType "PING".

(** [envelope.Err == io.EOF] *)
Definition isEOF (u : EnvelopeOrError) : bool :=
  match Err u with
  | Some io_EOF => true
  | _ => false
  end.

(** The local variables of the goroutine: [deadlineCh] is the instant at
    which the channel returned by [time.After] delivers. *)
Record loop : Type := mkLoop {
  envelope : EnvelopeOrError;
  envelopeReady : bool;
  deadline : Time;
  deadlineCh : Time
}.

(** The four cases of the [select]. *)
Inductive select_case : Type :=
| SendOut                          (* case outCh <- envelope *)
| RecvIn (u : EnvelopeOrError)     (* case envelope = <-inCh *)
| DeadlineTick                     (* case <-deadlineCh *)
| CtxDone.                         (* case <-ctx.Done() *)

(** The [return] statements of the loop. *)
Inductive exit : Type :=
| ExitErrSent        (* if envelope.Err != nil { return } *)
| ExitEndOfStream    (* if envelope.Envelope.Type == "END_OF_STREAM" { return } *)
| ExitEOF            (* if envelope.Err == io.EOF { return } *)
| ExitDeadline       (* if deadline.Before(now) { return } *)
| ExitDone.          (* case <-ctx.Done(): return *)

Inductive outcome : Type :=
| Next (l : loop) (sent : option EnvelopeOrError)
| Return (why : exit) (sent : option EnvelopeOrError)
| NilDereference (sent : option EnvelopeOrError).

(** One turn of [for { select { ... } }] at instant [now]; [None] when the
    case is not ready: a send or a receive on a nil channel, or a timer
    that has not fired yet. *)
Definition select_step (pingTimeout : Duration) (l : loop) (now : Time)
    (c : select_case) : option outcome :=
  match c with
  | SendOut =>
      if envelopeReady l then
        let l' := mkLoop (envelope l) false (deadline l) (deadlineCh l) in
        match Err (envelope l), Env (envelope l) with
        | Some _, _ => Some (Return ExitErrSent (Some (envelope l)))
        | None, None => Some (NilDereference (Some (envelope l)))
        | None, Some e =>
            if String.eqb (Type_ e) "END_OF_STREAM"
            then Some (Return ExitEndOfStream (Some (envelope l)))
            else Some (Next l' (Some (envelope l)))
        end
      else None
  | RecvIn u =>
      if envelopeReady l then None
      else if isEOF u then Some (Return ExitEOF None)
      else
        let deadline' :=
          if isPing u then Add now pingTimeout else deadline l in
        Some (Next (mkLoop u true deadline' (deadlineCh l)) None)
  | DeadlineTick =>
      if deadlineCh l <=? now then
        if Before (deadline l) now then Some (Return ExitDeadline None)
        else
          let deadlineCh' := Add now (Sub (deadline l) now) in
          Some (Next (mkLoop (envelope l) (envelopeReady l) (deadline l)
                        deadlineCh') None)
      else None
  | CtxDone => Some (Return ExitDone None)
  end.

(** The state of the goroutine on entry, at instant [t0]:
    [deadlineCh = time.After(pingTimeout)]. *)
Definition loop_start (pingTimeout : Duration) (t0 : Time) : loop :=
  mkLoop (mkUnit None None) false zeroTime (Add t0 pingTimeout).

(** The deferred calls of the goroutine, in the order they run (last in,
    first out). *)
Inductive deferred_call : Type :=
| CallCancel       (* defer cancel() *)
| CallCloseOut     (* defer close(out) *)
| CallCloseBody.   (* defer body.Close() *)

Definition deferred_calls : list deferred_call :=
  [CallCancel; CallCloseOut; CallCloseBody].

(** What the deferred calls leave behind. *)
Record resources : Type := mkResources {
  ctxCancelled : bool;
  outClosed : bool;
  bodyClosed : bool
}.

Definition live : resources := mkResources false false false.

Definition run_call (r : resources) (c : deferred_call) : resources :=
  match c with
  | CallCancel => mkResources true (outClosed r) (bodyClosed r)
  | CallCloseOut => mkResources (ctxCancelled r) true (bodyClosed r)
  | CallCloseBody => mkResources (ctxCancelled r) (outClosed r) true
  end.

Definition deferred (r : resources) : resources :=
  fold_left run_call deferred_calls r.

Inductive status : Type :=
| Running (l : loop) (clock : Time)
| Exited (why : exit)
| Panicked
| Unrealizable.

Definition resources_of (s : status) : resources :=
  match s with
  | Exited _ => deferred live
  | _ => live
  end.

(** A schedule is the list of the cases that fire, each with its instant;
    the clock never runs backwards. Once the goroutine has returned, what
    is left of the schedule is not looked at. *)
Fixpoint run_loop (pingTimeout : Duration) (l : loop) (clock : Time)
    (schedule : list (Time * select_case)) : list EnvelopeOrError * status :=
  match schedule with
  | [] => ([], Running l clock)
  | (now, c) :: rest =>
      if now <? clock then ([], Unrealizable)
      else
        match select_step pingTimeout l now c with
        | None => ([], Unrealizable)
        | Some (Next l' sent) =>
            let '(out, s) := run_loop pingTimeout l' now rest in
            (match sent with Some u => u :: out | None => out end, s)
        | Some (Return why sent) =>
            (match sent with Some u => [u] | None => [] end, Exited why)
        | Some (NilDereference sent) =>
            (match sent with Some u => [u] | None => [] end, Panicked)
        end
  end.

(** The goroutine fused with its decoder: the schedule says when a receive
    from [envelopeCh] fires, the decoder says what is received. *)
Inductive label : Type :=
| LSend
| LRecv
| LDeadline
| LDone.

Section EnvelopeStream.
Variable D : Type.
Variable Decode : D -> (Envelope + error) * D.

Fixpoint feed (decoder : D) (schedule : list (Time * label))
    : list (Time * select_case) :=
  match schedule with
  | [] => []
  | (now, LSend) :: rest => (now, SendOut) :: feed decoder rest
  | (now, LDeadline) :: rest => (now, DeadlineTick) :: feed decoder rest
  | (now, LDone) :: rest => (now, CtxDone) :: feed decoder rest
  | (now, LRecv) :: rest =>
      let '(u, decoder') := decodeEnvelopes_offer Decode decoder in
      (now, RecvIn u) :: feed decoder' rest
  end.

(** [envelopeStream(parent, body, pingTimeout)], started at [t0] on a
    body read through [decoder]: the units sent on [out] and how the
    goroutine ends under the schedule. *)
Definition envelopeStream (body : D) (pingTimeout : Duration) (t0 : Time)
    (schedule : list (Time * label)) : list EnvelopeOrError * status :=
  run_loop pingTimeout (loop_start pingTimeout t0) t0 (feed body schedule).
End EnvelopeStream.

Arguments feed {D} Decode decoder schedule.
Arguments envelopeStream {D} Decode body pingTimeout t0 schedule.

(** ** The reconnecting supervisor (stream.go, reconnectStream)

    stream.go holds two versions of [reconnectStream]. Both are embedded
    over the same labels, so that their executions can be compared. *)

(** What [stream(ctx)] returns: a channel and a nil error, or an error. *)
Inductive factory_result : Type :=
| Opened
| Failed (err : error).

Inductive rlabel : Type :=
| Call                                   (* stream(ctx) is entered *)
| Factory (r : factory_result)           (* stream(ctx) returns *)
| OutSent                                (* a send on out fires *)
| InRecv (m : option EnvelopeOrError)    (* a receive on in fires; None: in is closed *)
| TimerFired                             (* case <-time.After(delay) *)
| Done.                                  (* case <-ctx.Done() *)

(** The context handed to the stream factory. *)
Inductive context : Type :=
| ParentContext     (* ctx, the argument of reconnectStream *)
| StreamContext.    (* streamCtx, made by context.WithCancel(ctx) for one attempt *)

(** What an execution lets the outside see. *)
Inductive obs : Type :=
| ObsCall (at_ : Time) (c : context)     (* a connection attempt *)
| ObsEmit (u : EnvelopeOrError)          (* a unit sent on out *)
| ObsCancel                              (* streamCancel() *)
| ObsClose.                              (* close(out) *)

(** [EnvelopeOrError{Err: fmt.Errorf("get stream: %v", err)}] *)
Definition getStreamError (err : error) : EnvelopeOrError :=
  mkUnit None (Some (Errorf "get stream" err)).

(** The version that hands the parent context to the factory and waits
    [delay] after every attempt (the later one in stream.go). *)
Module ParentCtx.

Inductive state : Type :=
| Connecting                   (* at the top of the outer for *)
| Calling                      (* inside stream(ctx) *)
| ErrSend (err : error)        (* select { out <- error unit; ctx.Done } *)
| Forwarding (envelope : EnvelopeOrError) (envelopeReady open : bool)
                               (* the select of the inner for *)
| Delay (armed : Time)         (* select { time.After(delay); ctx.Done } *)
| Closed.                      (* returned; close(out) has run *)

(** The top of the inner loop: [if !open && !envelopeReady { return }];
    returning from the closure enters the delay, armed at [now]. *)
Definition loop_top (now : Time) (envelope : EnvelopeOrError)
    (envelopeReady open : bool) : state :=
  if negb open && negb envelopeReady then Delay now
  else Forwarding envelope envelopeReady open.

Definition step (delay : Duration) (st : state) (now : Time) (l : rlabel)
    : option (state * list obs) :=
  match st, l with
  | Connecting, Call => Some (Calling, [ObsCall now ParentContext])
  | Calling, Factory (Failed err) => Some (ErrSend err, [])
  | Calling, Factory Opened =>
      Some (loop_top now (mkUnit None None) false true, [])
  | ErrSend err, OutSent => Some (Delay now, [ObsEmit (getStreamError err)])
  | ErrSend err, Done => Some (Delay now, [])
  | Forwarding envelope envelopeReady open, InRecv m =>
      if negb envelopeReady && open then
        match m with
        | Some u => Some (loop_top now u true true, [])
        | None => Some (loop_top now (mkUnit None None) false false, [])
        end
      else None
  | Forwarding envelope envelopeReady open, OutSent =>
      if envelopeReady
      then Some (loop_top now envelope false open, [ObsEmit envelope])
      else None
  | Forwarding _ _ _, Done => Some (Delay now, [])
  | Delay armed, TimerFired =>
      if Add armed delay <=? now then Some (Connecting, []) else None
  | Delay armed, Done => Some (Closed, [ObsClose])
  | _, _ => None
  end.

End ParentCtx.

(** The version that makes a cancellable context for every attempt and
    waits [delay] only after a failed one (the first one in stream.go). *)
Module SubCtx.

Inductive state : Type :=
| Connecting                   (* at the top of the outer for *)
| Calling                      (* inside stream(streamCtx) *)
| ErrSend (err : error)        (* select { out <- error unit; ctx.Done } *)
| ErrDelay (armed : Time)      (* select { time.After(delay); ctx.Done } *)
| Receiving                    (* select { msg, ok := <-in; ctx.Done } *)
| Sending (msg : EnvelopeOrError)   (* select { out <- msg; ctx.Done } *)
| Closed.                      (* returned; close(out) has run *)

(** [return true]: the deferred [streamCancel()], then [close(out)]. *)
Definition stop : state * list obs := (Closed, [ObsCancel; ObsClose]).

(** [return false]: the deferred [streamCancel()], then the next turn. *)
Definition again : state * list obs := (Connecting, [ObsCancel]).

Definition step (delay : Duration) (st : state) (now : Time) (l : rlabel)
    : option (state * list obs) :=
  match st, l with
  | Connecting, Call => Some (Calling, [ObsCall now StreamContext])
  | Calling, Factory (Failed err) => Some (ErrSend err, [])
  | Calling, Factory Opened => Some (Receiving, [])
  | ErrSend err, OutSent =>
      Some (ErrDelay now, [ObsEmit (getStreamError err)])
  | ErrSend err, Done => Some stop
  | ErrDelay armed, TimerFired =>
      if Add armed delay <=? now then Some again else None
  | ErrDelay armed, Done => Some stop
  | Receiving, InRecv (Some msg) => Some (Sending msg, [])
  | Receiving, InRecv None => Some again
  | Receiving, Done => Some stop
  | Sending msg, OutSent => Some (Receiving, [ObsEmit msg])
  | Sending msg, Done => Some stop
  | _, _ => None
  end.

End SubCtx.

(** An execution: the labels that fire, each at its instant, on a clock
    that never runs backwards. [None] when a label is not ready. *)
Section Execution.
Variable S : Type.
Variable step : S -> Time -> rlabel -> option (S * list obs).

Fixpoint execute (st : S) (clock : Time) (schedule : list (Time * rlabel))
    : option (S * Time * list obs) :=
  match schedule with
  | [] => Some (st, clock, [])
  | (now, l) :: rest =>
      if now <? clock then None
      else
        match step st now l with
        | None => None
        | Some (st', seen) =>
            match execute st' now rest with
            | None => None
            | Some (st'', clock', seen') => Some (st'', clock', seen ++ seen')
            end
        end
  end.
End Execution.

Arguments execute {S} step st clock schedule.

(** [reconnectStream(ctx, stream, delay)], started at [t0]. *)
Definition reconnectStream (delay : Duration) (t0 : Time)
    (schedule : list (Time * rlabel)) :=
  execute (ParentCtx.step delay) ParentCtx.Connecting t0 schedule.

Definition reconnectStream_subctx (delay : Duration) (t0 : Time)
    (schedule : list (Time * rlabel)) :=
  execute (SubCtx.step delay) SubCtx.Connecting t0 schedule.

(** The units, and the instants of the connection attempts, in what was
    seen. *)
Fixpoint emitted (seen : list obs) : list EnvelopeOrError :=
  match seen with
  | [] => []
  | ObsEmit u :: rest => u :: emitted rest
  | _ :: rest => emitted rest
  end.

Fixpoint attempts (seen : list obs) : list Time :=
  match seen with
  | [] => []
  | ObsCall t _ :: rest => t :: attempts rest
  | _ :: rest => attempts rest
  end.

(** The state of the decoder after the receives of a schedule. *)
Fixpoint decoder_after {D : Type} (Decode : D -> (Envelope + error) * D)
    (decoder : D) (schedule : list (Time * label)) : D :=
  match schedule with
  | [] => decoder
  | (_, LRecv) :: rest =>
      decoder_after Decode (snd (decodeEnvelopes_offer Decode decoder)) rest
  | _ :: rest => decoder_after Decode decoder rest
  end.

(** A body given by what [json.Decoder] makes of it: envelopes, up to a
    value it cannot parse or to the clean end of the input. Once [Decode]
    has failed to parse, it returns the same error again. *)
Inductive token : Type :=
| Parsed (e : Envelope)
| Malformed (msg : string).

Definition scriptedDecode (body : list token)
    : (Envelope + error) * list token :=
  match body with
  | [] => (inr io_EOF, [])
  | Parsed e :: rest => (inl e, rest)
  | Malformed msg :: rest => (inr (errorString msg), Malformed msg :: rest)
  end.


(** ** Receive: the supervisor over envelope streams (receive.go)

    [Receive] runs [reconnectStream] over a factory that opens a body and
    returns [envelopeStream(ctx, body, pingTimeout)]. The goroutines run
    side by side: an action is a step of one of them, or a unit handed from
    the newest stream to the supervisor. *)

(** The goroutine of one envelope stream: in its loop, or returned, with
    the first [ran] of its deferred calls done. *)
Inductive goroutine : Type :=
| Looping (l : loop)
| Returning (ran : nat).

Definition deferred_call_eqb (a b : deferred_call) : bool :=
  match a, b with
  | CallCancel, CallCancel => true
  | CallCloseOut, CallCloseOut => true
  | CallCloseBody, CallCloseBody => true
  | _, _ => false
  end.

(** Whether a deferred call of the goroutine has run. *)
Definition has_run (c : deferred_call) (g : goroutine) : bool :=
  match g with
  | Looping _ => false
  | Returning ran => existsb (deferred_call_eqb c) (firstn ran deferred_calls)
  end.

Record system : Type := mkSystem {
  supervisor : ParentCtx.state;
  streams : list goroutine;     (* one for every body opened, newest first *)
  cancelled : bool              (* the context given to Receive is done *)
}.

Inductive action : Type :=
| Cancel                              (* the caller cancels the context *)
| Supervisor (l : rlabel)             (* a step of reconnectStream, but for a unit received *)
| Handoff                             (* the newest stream sends, the supervisor receives *)
| Stream (i : nat) (c : select_case)  (* a turn of the loop of stream i, but for a send *)
| Deferred (i : nat).                 (* the next deferred call of stream i *)

(** The context of a stream is done when its own [cancel()] has run or
    when its parent is done. *)
Definition ctx_done (s : system) (g : goroutine) : bool :=
  cancelled s || has_run CallCancel g.

Definition replace_nth {A : Type} (i : nat) (x : A) (l : list A) : list A :=
  firstn i l ++ x :: skipn (S i) l.

Definition after_turn (o : outcome) : option goroutine :=
  match o with
  | Next l _ => Some (Looping l)
  | Return _ _ => Some (Returning 0)
  | NilDereference _ => None
  end.

Definition sent_by (o : outcome) : option EnvelopeOrError :=
  match o with
  | Next _ sent => sent
  | Return _ sent => sent
  | NilDereference sent => sent
  end.

Definition system_step (pingTimeout delay : Duration) (s : system)
    (now : Time) (a : action) : option system :=
  match a with
  | Cancel => Some (mkSystem (supervisor s) (streams s) true)
  | Supervisor l =>
      let ready :=
        match l with
        | Done => cancelled s
        | InRecv (Some _) => false
        | InRecv None =>
            match streams s with
            | g :: _ => has_run CallCloseOut g
            | [] => false
            end
        | _ => true
        end in
      if ready then
        match ParentCtx.step delay (supervisor s) now l with
        | Some (st, _) =>
            let opened :=
              match l with
              | Factory Opened => [Looping (loop_start pingTimeout now)]
              | _ => []
              end in
            Some (mkSystem st (opened ++ streams s) (cancelled s))
        | None => None
        end
      else None
  | Handoff =>
      match streams s with
      | Looping l :: rest =>
          match select_step pingTimeout l now SendOut with
          | Some o =>
              match sent_by o, after_turn o with
              | Some u, Some g =>
                  match ParentCtx.step delay (supervisor s) now
                          (InRecv (Some u)) with
                  | Some (st, _) => Some (mkSystem st (g :: rest) (cancelled s))
                  | None => None
                  end
              | _, _ => None
              end
          | None => None
          end
      | _ => None
      end
  | Stream i c =>
      match nth_error (streams s) i, c with
      | Some (Looping l), SendOut => None
      | Some (Looping l), _ =>
          if match c with CtxDone => cancelled s | _ => true end then
            match select_step pingTimeout l now c with
            | Some o =>
                match after_turn o with
                | Some g =>
                    Some (mkSystem (supervisor s)
                            (replace_nth i g (streams s)) (cancelled s))
                | None => None
                end
            | None => None
            end
          else None
      | _, _ => None
      end
  | Deferred i =>
      match nth_error (streams s) i with
      | Some (Returning ran) =>
          if (ran <? List.length deferred_calls)%nat then
            Some (mkSystem (supervisor s)
                    (replace_nth i (Returning (S ran)) (streams s))
                    (cancelled s))
          else None
      | _ => None
      end
  end.

Definition system_start : system := mkSystem ParentCtx.Connecting [] false.

Fixpoint system_run (pingTimeout delay : Duration) (s : system) (clock : Time)
    (schedule : list (Time * action)) : option system :=
  match schedule with
  | [] => Some s
  | (now, a) :: rest =>
      if now <? clock then None
      else
        match system_step pingTimeout delay s now a with
        | Some s' => system_run pingTimeout delay s' now rest
        | None => None
        end
  end.

(** [Receive(ctx, topic, r)] started at [t0]. *)
Definition Receive (r : ReceiveRequest) (t0 : Time)
    (schedule : list (Time * action)) : option system :=
  system_run (pingTimeout r) (reconnectionDelay r) system_start t0 schedule.





(** ** Notions the properties are stated with *)

(** The units a schedule delivers on [envelopeCh]. *)
Fixpoint received (schedule : list (Time * select_case))
    : list EnvelopeOrError :=
  match schedule with
  | [] => []
  | (_, RecvIn u) :: rest => u :: received rest
  | _ :: rest => received rest
  end.

(** The instants at which a schedule delivers a PING-typed envelope. *)
Fixpoint heartbeats (schedule : list (Time * select_case)) : list Time :=
  match schedule with
  | [] => []
  | (now, RecvIn u) :: rest =>
      if isPing u then now :: heartbeats rest else heartbeats rest
  | _ :: rest => heartbeats rest
  end.

(** No deadline tick of the schedule comes more than [pingTimeout] after
    the last PING delivered before it. *)
Definition fresh (pingTimeout : Duration)
    (schedule : list (Time * select_case)) : Prop :=
  forall pre now post,
    schedule = pre ++ (now, DeadlineTick) :: post ->
    exists t, In t (heartbeats pre) /\ now <= Add t pingTimeout.

(** A heartbeat. *)
Definition ping : EnvelopeOrError :=
  mkUnit (Some (envelopeOfType "PING")) None.

(** A PING at [t + h] and at [t + 2h], each taken at once by the consumer,
    and the timer firing at [t + 2h]; [rounds] times. *)
Fixpoint pingEvery (h : Duration) (t : Time) (rounds : nat)
    : list (Time * select_case) :=
  match rounds with
  | O => []
  | S n =>
      (t + h, RecvIn ping) :: (t + h, SendOut) ::
      (t + 2 * h, RecvIn ping) :: (t + 2 * h, SendOut) ::
      (t + 2 * h, DeadlineTick) :: pingEvery h (t + 2 * h) n
  end.

(** A decidable form of [fresh], for concrete schedules. *)
Fixpoint freshb_from (T : Duration) (seen : list Time)
    (schedule : list (Time * select_case)) : bool :=
  match schedule with
  | [] => true
  | (now, DeadlineTick) :: rest =>
      existsb (fun t => now <=? Add t T) seen && freshb_from T seen rest
  | (now, RecvIn u) :: rest =>
      freshb_from T (if isPing u then now :: seen else seen) rest
  | _ :: rest => freshb_from T seen rest
  end.


(** The units a schedule delivers on the [in] channels. *)
Fixpoint delivered (schedule : list (Time * rlabel)) : list EnvelopeOrError :=
  match schedule with
  | [] => []
  | (_, InRecv (Some u)) :: rest => u :: delivered rest
  | _ :: rest => delivered rest
  end.

(** The unit the supervisor holds ready to send, if any. *)
Definition held (st : ParentCtx.state) : list EnvelopeOrError :=
  match st with
  | ParentCtx.Forwarding envelope true _ => [envelope]
  | _ => []
  end.

(** Successive instants lie at least [delay] apart. *)
Fixpoint spaced (delay : Duration) (ts : list Time) : Prop :=
  match ts with
  | t1 :: ((t2 :: _) as rest) => Add t1 delay <= t2 /\ spaced delay rest
  | _ => True
  end.

(** What the state of the supervisor says about the instant [tc] of the
    latest attempt. *)
Definition since (delay : Duration) (tc : Time) (st : ParentCtx.state)
    (clock : Time) : Prop :=
  match st with
  | ParentCtx.Connecting => Add tc delay <= clock
  | ParentCtx.Delay armed => tc <= armed
  | ParentCtx.Closed => True
  | _ => tc <= clock
  end.

(** What an execution shows of the supervisor: the units sent and the
    instants of the connection attempts. *)
Definition shown {S : Type} (r : option (S * Time * list obs))
    : option (list EnvelopeOrError * list Time) :=
  match r with
  | Some (_, _, seen) => Some (emitted seen, attempts seen)
  | None => None
  end.

(** The two versions accept the same schedules and show the same on them. *)
Definition same_supervisors : Prop :=
  forall delay t0 schedule,
    shown (reconnectStream_subctx delay t0 schedule) =
    shown (reconnectStream delay t0 schedule).

(** The schedule of the parent-context version without the timers that
    follow the closing of a source. *)
Fixpoint without_close_delay (after_close : bool)
    (schedule : list (Time * rlabel)) : list (Time * rlabel) :=
  match schedule with
  | [] => []
  | (now, TimerFired) :: rest =>
      if after_close then without_close_delay false rest
      else (now, TimerFired) :: without_close_delay false rest
  | (now, InRecv None) :: rest =>
      (now, InRecv None) :: without_close_delay true rest
  | (now, l) :: rest => (now, l) :: without_close_delay false rest
  end.

(** States of the two versions that stand at the same place. With the flag
    set, the parent-context version waits after a source has closed and the
    other version is already at its next turn. *)
Inductive alike : bool -> ParentCtx.state -> SubCtx.state -> Prop :=
| alike_connecting : alike false ParentCtx.Connecting SubCtx.Connecting
| alike_calling : alike false ParentCtx.Calling SubCtx.Calling
| alike_errsend err : alike false (ParentCtx.ErrSend err) (SubCtx.ErrSend err)
| alike_receiving envelope :
    alike false (ParentCtx.Forwarding envelope false true) SubCtx.Receiving
| alike_sending envelope :
    alike false (ParentCtx.Forwarding envelope true true) (SubCtx.Sending envelope)
| alike_errdelay armed : alike false (ParentCtx.Delay armed) (SubCtx.ErrDelay armed)
| alike_closed armed : alike true (ParentCtx.Delay armed) SubCtx.Connecting.







(** ** Order of the units, and more notions for the properties below *)

Definition prefix {A : Type} (l1 l2 : list A) : Prop :=
  exists rest, l2 = l1 ++ rest.

(** The unit the loop of the envelope stream holds ready, if any. *)
Definition held_unit (l : loop) : list EnvelopeOrError :=
  if envelopeReady l then [envelope l] else [].

(** The number of receives from the decoder in a schedule. *)
Fixpoint receives (schedule : list (Time * label)) : nat :=
  match schedule with
  | [] => O
  | (_, LRecv) :: rest => S (receives rest)
  | _ :: rest => receives rest
  end.

(** What a supervisor is given to send, in order: an error unit for every
    failed call of the factory, and the units received from the sources. *)
Fixpoint relay (schedule : list (Time * rlabel)) : list EnvelopeOrError :=
  match schedule with
  | [] => []
  | (_, Factory (Failed err)) :: rest => getStreamError err :: relay rest
  | (_, InRecv (Some u)) :: rest => u :: relay rest
  | _ :: rest => relay rest
  end.

(** The unit a supervisor is about to send, if any. *)
Definition pending (st : ParentCtx.state) : list EnvelopeOrError :=
  match st with
  | ParentCtx.ErrSend err => [getStreamError err]
  | ParentCtx.Forwarding envelope true _ => [envelope]
  | _ => []
  end.

Definition pending_subctx (st : SubCtx.state) : list EnvelopeOrError :=
  match st with
  | SubCtx.ErrSend err => [getStreamError err]
  | SubCtx.Sending msg => [msg]
  | _ => []
  end.

(** Contexts made for an attempt and not cancelled yet. *)
Fixpoint uncancelled (seen : list obs) : Z :=
  match seen with
  | [] => 0
  | ObsCall _ _ :: rest => 1 + uncancelled rest
  | ObsCancel :: rest => uncancelled rest - 1
  | _ :: rest => uncancelled rest
  end.

(** Whether the sub-context supervisor is inside an attempt. *)
Definition in_attempt (st : SubCtx.state) : Z :=
  match st with
  | SubCtx.Connecting => 0
  | SubCtx.Closed => 0
  | _ => 1
  end.

Definition optlist {A : Type} (x : option A) : list A :=
  match x with
  | Some a => [a]
  | None => []
  end.

(** The unit a turn of the loop takes from the decoder, if any. *)
Definition taken (c : select_case) : list EnvelopeOrError :=
  match c with
  | RecvIn u => [u]
  | _ => []
  end.

(** What one label gives a supervisor to send. *)
Definition given (l : rlabel) : list EnvelopeOrError :=
  match l with
  | Factory (Failed err) => [getStreamError err]
  | InRecv (Some u) => [u]
  | _ => []
  end.

(** * The first revision of stream.go: one goroutine for each stage

    [envelopeStream(ctx, body)], [pingFilter(ctx, in, timeout)] and
    [endOfStreamFilter(ctx, in)] each run one goroutine between two
    channels. A stage is a transition function on the place where its
    goroutine is blocked; an event is what unblocks it. *)
Module Filters.

Inductive event : Type :=
| Read                                  (* decoder.Decode(e) returns *)
| Recv (m : option EnvelopeOrError)     (* msg, ok := <-in; None: closed *)
| Sent                                  (* out <- ... is taken *)
| Expire                                (* the runtime fires the timer *)
| TimerC                                (* <-timer.C *)
| Done.                                 (* <-ctx.Done() *)

Inductive effect : Type :=
| Emit (u : EnvelopeOrError)            (* a unit sent on out *)
| CloseBody                             (* body.Close() *)
| CloseOut.                             (* close(out) *)

Section Run.
Variable S : Type.
Variable step : S -> Time -> event -> option (S * list effect).

Fixpoint run (st : S) (clock : Time) (schedule : list (Time * event))
    : option (S * Time * list effect) :=
  match schedule with
  | [] => Some (st, clock, [])
  | (now, ev) :: rest =>
      if now <? clock then None
      else
        match step st now ev with
        | None => None
        | Some (st', seen) =>
            match run st' now rest with
            | None => None
            | Some (st'', clock', seen') => Some (st'', clock', seen ++ seen')
            end
        end
  end.
End Run.

Arguments run {S} step st clock schedule.

(** The units sent on [out]. *)
Fixpoint sent (seen : list effect) : list EnvelopeOrError :=
  match seen with
  | [] => []
  | Emit u :: rest => u :: sent rest
  | _ :: rest => sent rest
  end.

(** The unit an event brings in from [in]. *)
Definition brought (ev : event) : list EnvelopeOrError :=
  match ev with
  | Recv (Some u) => [u]
  | _ => []
  end.

(** The units received from [in]. *)
Fixpoint inputs (schedule : list (Time * event)) : list EnvelopeOrError :=
  match schedule with
  | [] => []
  | (_, ev) :: rest => brought ev ++ inputs rest
  end.

(** The number of calls of [decoder.Decode] that return. *)
Fixpoint reads (schedule : list (Time * event)) : nat :=
  match schedule with
  | [] => O
  | (_, Read) :: rest => S (reads rest)
  | _ :: rest => reads rest
  end.

(** The instants at which a PING is received. *)
Fixpoint pings (schedule : list (Time * event)) : list Time :=
  match schedule with
  | [] => []
  | (t, Recv (Some u)) :: rest =>
      if isPing u then t :: pings rest else pings rest
  | _ :: rest => pings rest
  end.

(** ** envelopeStream(ctx, body) *)

Section EnvelopeStream.
Variable D : Type.
Variable Decode : D -> (Envelope + error) * D.

Inductive decoding : Type :=
| Decoding (decoder : D)              (* in decoder.Decode(e) *)
| SendingErr (err : error)            (* select { out <- error; ctx.Done } *)
| Sending (e : Envelope) (decoder : D)  (* select { out <- e; ctx.Done } *)
| Returned.                           (* both deferred calls have run *)

(** [EnvelopeOrError{Err: fmt.Errorf("decode envelope: %v", err)}] *)
Definition decodeError (err : error) : EnvelopeOrError :=
  mkUnit None (Some (Errorf "decode envelope" err)).

(** [defer close(out)] is registered first and [defer body.Close()] after
    it, so the body is closed first. *)
Definition envelopeStream_step (st : decoding) (now : Time) (ev : event)
    : option (decoding * list effect) :=
  match st, ev with
  | Decoding decoder, Read =>
      match Decode decoder with
      | (inr io_EOF, _) => Some (Returned, [CloseBody; CloseOut])
      | (inr err, _) => Some (SendingErr err, [])
      | (inl e, decoder') => Some (Sending e decoder', [])
      end
  | SendingErr err, Sent =>
      Some (Returned, [Emit (decodeError err); CloseBody; CloseOut])
  | SendingErr err, Done => Some (Returned, [CloseBody; CloseOut])
  | Sending e decoder, Sent =>
      Some (Decoding decoder, [Emit (mkUnit (Some e) None)])
  | Sending e decoder, Done => Some (Returned, [CloseBody; CloseOut])
  | _, _ => None
  end.

Definition envelopeStream (body : D) (t0 : Time)
    (schedule : list (Time * event)) :=
  run envelopeStream_step (Decoding body) t0 schedule.

(** What [n] more calls of [Decode] let the stream send: the envelopes up
    to the first error, and a unit for that error unless it is [io.EOF]. *)
Fixpoint decoded (n : nat) (decoder : D) : list EnvelopeOrError :=
  match n with
  | O => []
  | S n' =>
      match Decode decoder with
      | (inl e, decoder') => mkUnit (Some e) None :: decoded n' decoder'
      | (inr io_EOF, _) => []
      | (inr err, _) => [decodeError err]
      end
  end.

(** What the stream has still to send where it is, with [n] more calls. *)
Definition ahead (st : decoding) (n : nat) : list EnvelopeOrError :=
  match st with
  | Decoding decoder => decoded n decoder
  | SendingErr err => [decodeError err]
  | Sending e decoder => mkUnit (Some e) None :: decoded n decoder
  | Returned => []
  end.

Definition decoding_returned (st : decoding) : bool :=
  match st with
  | Returned => true
  | _ => false
  end.
End EnvelopeStream.

Arguments Decoding {D} decoder.
Arguments SendingErr {D} err.
Arguments Sending {D} e decoder.
Arguments Returned {D}.
Arguments envelopeStream_step {D} Decode st now ev.
Arguments envelopeStream {D} Decode body t0 schedule.
Arguments decoded {D} Decode n decoder.
Arguments ahead {D} Decode st n.
Arguments decoding_returned {D} st.

(** ** pingFilter(ctx, in, timeout) *)

(** A [time.Timer]: the instant it is set for, and whether the runtime has
    fired it. [timer.Stop()] is true when it has not. *)
Record timer : Type := mkTimer { when : Time; fired : bool }.

Inductive pinging : Type :=
| Waiting (tm : timer)            (* select { ctx.Done; timer.C; in } *)
| Passing (msg : EnvelopeOrError) (tm : timer)
                                  (* select { out <- msg; ctx.Done } *)
| Stopped.                        (* close(out) has run *)

(** The runtime fires a timer that has not fired, at the instant it is
    set for or later. The deferred function of [pingFilter] stops the
    timer and drains its channel; nothing of it is seen from outside. *)
Definition expire (tm : timer) (now : Time) : option timer :=
  if negb (fired tm) && (when tm <=? now)
  then Some (mkTimer (when tm) true) else None.

Definition pingFilter_step (timeout : Duration) (st : pinging) (now : Time)
    (ev : event) : option (pinging * list effect) :=
  match st, ev with
  | Waiting tm, Expire =>
      match expire tm now with
      | Some tm' => Some (Waiting tm', [])
      | None => None
      end
  | Passing msg tm, Expire =>
      match expire tm now with
      | Some tm' => Some (Passing msg tm', [])
      | None => None
      end
  | Waiting tm, Done => Some (Stopped, [CloseOut])
  | Waiting tm, TimerC =>
      if fired tm then Some (Stopped, [CloseOut]) else None
  | Waiting tm, Recv None => Some (Stopped, [CloseOut])
  | Waiting tm, Recv (Some msg) =>
      if isPing msg then
        if fired tm                       (* !timer.Stop() *)
        then Some (Stopped, [CloseOut])
        else Some (Passing msg (mkTimer (Add now timeout) false), [])
      else Some (Passing msg tm, [])
  | Passing msg tm, Sent => Some (Waiting tm, [Emit msg])
  | Passing msg tm, Done => Some (Stopped, [CloseOut])
  | _, _ => None
  end.

(** [timer := time.NewTimer(timeout)] at [t0]. *)
Definition pingFilter (timeout : Duration) (t0 : Time)
    (schedule : list (Time * event)) :=
  run (pingFilter_step timeout)
      (Waiting (mkTimer (Add t0 timeout) false)) t0 schedule.

Definition passing (st : pinging) : list EnvelopeOrError :=
  match st with
  | Passing msg _ => [msg]
  | _ => []
  end.

Definition pinging_returned (st : pinging) : bool :=
  match st with
  | Stopped => true
  | _ => false
  end.

(** ** endOfStreamFilter(ctx, in) *)

Inductive ending : Type :=
| Listening                        (* select { ctx.Done; in } *)
| Handing (msg : EnvelopeOrError)  (* select { out <- msg; ctx.Done } *)
| Ended.                           (* close(out) has run *)

Definition endOfStreamFilter_step (st : ending) (now : Time) (ev : event)
    : option (ending * list effect) :=
  match st, ev with
  | Listening, Done => Some (Ended, [CloseOut])
  | Listening, Recv None => Some (Ended, [CloseOut])
  | Listening, Recv (Some msg) => Some (Handing msg, [])
  | Handing msg, Sent =>
      if isType "END_OF_STREAM" msg
      then Some (Ended, [Emit msg; CloseOut])
      else Some (Listening, [Emit msg])
  | Handing msg, Done => Some (Ended, [CloseOut])
  | _, _ => None
  end.

Definition endOfStreamFilter (t0 : Time) (schedule : list (Time * event)) :=
  run endOfStreamFilter_step Listening t0 schedule.

Definition handing (st : ending) : list EnvelopeOrError :=
  match st with
  | Handing msg => [msg]
  | _ => []
  end.

Definition ending_returned (st : ending) : bool :=
  match st with
  | Ended => true
  | _ => false
  end.

End Filters.

(** The timer of a running ping filter is set [timeout] or more after the
    start and after every PING received, and has not fired early. *)
Definition timer_inv (timeout : Duration) (lows : list Time)
    (st : Filters.pinging) (clock : Time) : Prop :=
  (forall t, In t lows -> t <= clock) /\
  forall tm,
    (st = Filters.Waiting tm \/ exists msg, st = Filters.Passing msg tm) ->
    (forall t, In t lows -> Add t timeout <= Filters.when tm) /\
    (Filters.fired tm = true -> Filters.when tm <= clock).



(** * The client (client.go, receive.go, send.go, sync.go, errors.go)

    [net/url], [net/http] and the token getter are the client's
    environment. A URL is the record [url.Parse] returns; what the
    libraries compute (parsing, escaping, the transport) is a parameter of
    the model, what the client does with it is written out. *)

(** [fmt.Sprintf("%d", n)] *)
Definition itoa (n : Z) : string := NilZero.string_of_int (Z.to_int n).

(** [d.Milliseconds()]: integer division, which truncates toward zero. *)
Definition Milliseconds (d : Duration) : Z := Z.quot d 1000000.

(** [url.Values], a map from a key to its values: the latest binding of a
    key in the list is the entry of the map. *)
Definition Values : Type := list (string * list string).


(** [values.Set(key, value)] *)
Definition valuesSet (key value : string) (values : Values) : Values :=
  (key, [value]) :: values.

Record URL : Type := mkURL {
  Scheme : string;
  Host : string;
  Path : string;
  RawQuery : string;
  Fragment : string
}.

(** [const ResetEarliest = 1], [ResetLatest = 2] *)
Definition ResetEarliest : Z := 1.
Definition ResetLatest : Z := 2.

(** The calls of [values.Set] in [receiveURL], in their order. *)
Definition receiveValues (group : string) (r : ReceiveRequest)
    (values : Values) : Values :=
  let values := valuesSet "group" group values in
  let values :=
    if SyncInterval r =? 0 then values
    else valuesSet "syncInterval" (itoa (Milliseconds (SyncInterval r))) values in
  let values :=
    match Organizations r with
    | Some orgs => valuesSet "org" (String.concat "," orgs) values
    | None => values
    end in
  let values :=
    match Sources r with
    | Some sources => valuesSet "source" (String.concat "," sources) values
    | None => values
    end in
  if Reset r =? ResetEarliest then valuesSet "reset" "earliest" values
  else if Reset r =? ResetLatest then valuesSet "reset" "latest" values
  else values.

(** The HTTP client and the token getter are values the client carries and
    never looks into. *)
Record ClientConfig (H T : Type) : Type := mkClientConfig {
  ConfigClient : option H;        (* nil: not provided *)
  PipelineURL : string;
  Group : string;
  TokenGetter : option T          (* nil: not provided *)
}.

Record Client (H T : Type) : Type := mkClient {
  client : H;
  pipelineURL : string;
  group : string;
  tokenGetter : T
}.

Arguments mkClientConfig {H T}.
Arguments ConfigClient {H T}.
Arguments PipelineURL {H T}.
Arguments Group {H T}.
Arguments TokenGetter {H T}.
Arguments mkClient {H T}.
Arguments client {H T}.
Arguments pipelineURL {H T}.
Arguments group {H T}.
Arguments tokenGetter {H T}.

Section Addresses.
Variable Parse : string -> URL + error.        (* url.Parse *)
Variable ParseQuery : string -> Values.        (* u.Query() *)
Variable Encode : Values -> string.            (* values.Encode() *)
Variable URLString : URL -> string.            (* u.String() *)

(** [urlMustParse]; [None] is the panic. *)
Definition urlMustParse (u : string) : option URL :=
  match Parse u with
  | inr _ => None
  | inl p => Some p
  end.

Definition withPath (u : URL) (path : string) : URL :=
  mkURL (Scheme u) (Host u) path (RawQuery u) (Fragment u).

Definition withRawQuery (u : URL) (query : string) : URL :=
  mkURL (Scheme u) (Host u) (Path u) query (Fragment u).

(** The URL and the query values [receiveURL] has just before
    [u.RawQuery = values.Encode()]. *)
Definition receiveAddress (pipelineURL group topic : string)
    (r : ReceiveRequest) : option (URL * Values) :=
  match urlMustParse pipelineURL with
  | None => None
  | Some u =>
      let u := withPath u ("/pipeline/topics/" ++ topic ++ "/messages") in
      Some (u, receiveValues group r (ParseQuery (RawQuery u)))
  end.

Definition receiveURL (pipelineURL group topic : string)
    (r : ReceiveRequest) : option string :=
  match receiveAddress pipelineURL group topic r with
  | None => None
  | Some (u, values) => Some (URLString (withRawQuery u (Encode values)))
  end.

Definition sendAddress (pipelineURL topic : string) : option URL :=
  match urlMustParse pipelineURL with
  | None => None
  | Some u => Some (withPath u ("/pipeline/topics/" ++ topic ++ "/messages"))
  end.

Definition sendURL (pipelineURL topic : string) : option string :=
  option_map URLString (sendAddress pipelineURL topic).

Definition syncAddress (pipelineURL group : string) : option URL :=
  match urlMustParse pipelineURL with
  | None => None
  | Some u => Some (withPath u ("/pipeline/consumers/" ++ group ++ "/sync"))
  end.

Definition syncURL (pipelineURL group : string) : option string :=
  option_map URLString (syncAddress pipelineURL group).

Section NewClient.
Variables H T : Type.
Variable defaultRetryClient : H.   (* defaultRetryClient().StandardClient() *)

Definition NewClient (cfg : ClientConfig H T) : Client H T + error :=
  match Parse (PipelineURL cfg) with
  | inr err => inr (Errorf "malformed URL" err)
  | inl _ =>
      if String.eqb (Group cfg) "" then inr (errorString "missing group")
      else
        match TokenGetter cfg with
        | None => inr (errorString "missing token getter")
        | Some getter =>
            inl (mkClient
                   (match ConfigClient cfg with
                    | Some c => c
                    | None => defaultRetryClient
                    end)
                   (PipelineURL cfg) (Group cfg) getter)
        end
  end.
End NewClient.
End Addresses.

Arguments NewClient Parse {H T} defaultRetryClient cfg.


(** A [url.Parse] that takes the text apart at the first [?]: enough to
    run the addresses on an example. *)
Fixpoint splitQuery (s : string) : string * string :=
  match s with
  | EmptyString => ("", "")
  | String c rest =>
      if Ascii.eqb c "?"%char then ("", rest)
      else let '(a, b) := splitQuery rest in (String c a, b)
  end.

Definition parseExample (s : string) : URL + error :=
  match s with
  | String ":" _ => inr (errorString "missing protocol scheme")
  | _ => let '(a, b) := splitQuery s in inl (mkURL "https" a "" b "")
  end.

(** ** Requests and responses *)

Inductive payload : Type :=
| NoBody                     (* a nil body *)
| Text (s : string)          (* strings.NewReader(marker) *)
| JSON (v : json).           (* the buffer the encoder wrote *)

Record Request : Type := mkRequest {
  Method : string;
  Target : string;                       (* the URL *)
  Header : list (string * string);       (* latest binding first *)
  Payload : payload
}.

Record Response (B : Type) : Type := mkResponse {
  StatusCode : Z;
  Body : B
}.

Arguments mkResponse {B}.
Arguments StatusCode {B}.
Arguments Body {B}.

(** [textproto.CanonicalMIMEHeaderKey] on names made of letters, digits
    and [-]: the first letter and every letter after a [-] in upper case,
    the others in lower case. *)
Definition toUpper (c : ascii) : ascii :=
  let n := nat_of_ascii c in
  if ((97 <=? n) && (n <=? 122))%nat then ascii_of_nat (n - 32) else c.

Definition toLower (c : ascii) : ascii :=
  let n := nat_of_ascii c in
  if ((65 <=? n) && (n <=? 90))%nat then ascii_of_nat (n + 32) else c.

Fixpoint canonical (upper : bool) (s : string) : string :=
  match s with
  | EmptyString => EmptyString
  | String c rest =>
      String (if upper then toUpper c else toLower c)
             (canonical (Ascii.eqb c "-"%char) rest)
  end.

Definition CanonicalMIMEHeaderKey (s : string) : string := canonical true s.

(** [req.Header.Set(key, value)] *)
Definition headerSet (key value : string) (req : Request) : Request :=
  mkRequest (Method req) (Target req)
            ((CanonicalMIMEHeaderKey key, value) :: Header req) (Payload req).

Fixpoint lookupHeader (h : list (string * string)) (key : string)
    : option string :=
  match h with
  | [] => None
  | (k, v) :: rest => if String.eqb k key then Some v else lookupHeader rest key
  end.

(** [req.Header.Get(key)], [None] when the header is not set. *)
Definition headerGet (req : Request) (key : string) : option string :=
  lookupHeader (Header req) (CanonicalMIMEHeaderKey key).

(** [type SendRequest struct]; [json.NewEncoder(&body).Encode(sendRequest)]
    of a pointer that may be nil. [Value] holds a JSON value, so the
    encoder has nothing to refuse. *)
Record SendRequest : Type := mkSendRequest {
  Messages : option (list Message)
}.

Definition marshalSendRequest (sendRequest : option SendRequest) : json :=
  match sendRequest with
  | None => JNull
  | Some s =>
      JObject [("messages",
                match Messages s with
                | None => JNull
                | Some l => JArray (map (fun m => JObject (marshalMessage m)) l)
                end)]
  end.

(** ** Errors of the pipeline (errors.go) *)

(** [err.Error()] of an error that is not an [*Error]. *)
Definition plainText (err : error) : string := Error err.

Module Errors.

(** [type Error struct]. [Report] is a struct the client only decodes and
    hands over: its type is a parameter. *)
Record Error (R : Type) : Type := mkError {
  StatusCode : Z;
  Status : Z;
  Title : string;
  Report : R
}.

Arguments mkError {R}.
Arguments StatusCode {R}.
Arguments Status {R}.
Arguments Title {R}.
Arguments Report {R}.

(** The names [encoding/json] reads the fields from: [StatusCode] has no
    tag and goes by its own name. *)
Definition errorTags : list string :=
  ["StatusCode"; "status"; "title"; "report"].

(** What the client's functions return as an [error]: an [*Error], or
    an error made by [fmt.Errorf]. *)
Inductive failure (R : Type) : Type :=
| Plain (err : error)
| Pipeline (e : Error R).

Arguments Plain {R}.
Arguments Pipeline {R}.

(** [err.Error()]; for an [*Error] it is [e.Title]. *)
Definition message {R : Type} (f : failure R) : string :=
  match f with
  | Plain err => plainText err
  | Pipeline e => Title e
  end.

Section Decode.
Variable EqualFold : string -> string -> bool.
Variable R : Type.
Variable zeroReport : R.
Variable unmarshalReport : json -> R -> R + error.

Definition setErrorField (e : Error R) (member : string * json)
    : Error R + error :=
  let '(name, v) := member in
  match fieldNamed EqualFold errorTags name with
  | None => inl e
  | Some tag =>
      if String.eqb tag "StatusCode" then
        bind (unmarshalInt v (StatusCode e)) (fun z =>
        inl (mkError z (Status e) (Title e) (Report e)))
      else if String.eqb tag "status" then
        bind (unmarshalInt v (Status e)) (fun z =>
        inl (mkError (StatusCode e) z (Title e) (Report e)))
      else if String.eqb tag "title" then
        bind (unmarshalString v (Title e)) (fun s =>
        inl (mkError (StatusCode e) (Status e) s (Report e)))
      else
        bind (unmarshalReport v (Report e)) (fun r =>
        inl (mkError (StatusCode e) (Status e) (Title e) r))
  end.

(** [var e Error; decoder.Decode(&e)] on one value. *)
Definition unmarshalError (v : json) : Error R + error :=
  let zero := mkError 0 0 "" zeroReport in
  match v with
  | JNull => inl zero
  | JObject members => unmarshalMembers setErrorField members zero
  | _ => inr (typeError v "pipeline.Error")
  end.

(** [newError(res)], given what the decoder makes of the body: its first
    JSON value, or the error of reading it. *)
Definition newError (status : Z) (scanned : json + error) : failure R :=
  match bind scanned unmarshalError with
  | inr err => Plain (Errorf "decode response" err)
  | inl e => Pipeline (mkError status (Status e) (Title e) (Report e))
  end.
End Decode.

End Errors.

(** ** The requests (sync.go, send.go, receive.go)

    A function of the client runs against a token getter and a transport
    and leaves a trace of what it does with them. *)

Inductive call : Type :=
| GetToken                   (* c.tokenGetter.Token(ctx) *)
| Perform (req : Request)    (* c.client.Do(req) *)
| DecodeBody                 (* json.NewDecoder(res.Body).Decode(&e) *)
| CloseBody.                 (* res.Body.Close() *)

Inductive halt (R : Type) : Type :=
| Fails (f : Errors.failure R)    (* a non-nil error *)
| Panics.                         (* urlMustParse *)

Arguments Fails {R}.
Arguments Panics {R}.

Definition traced (R A : Type) : Type := list call * (A + halt R).

Definition ret {R A : Type} (a : A) : traced R A := ([], inl a).

Definition andThen {R A B : Type} (m : traced R A) (f : A -> traced R B)
    : traced R B :=
  match m with
  | (t, inl a) => let '(t', r) := f a in (t ++ t', r)
  | (t, inr h) => (t, inr h)
  end.

Notation "x <- m ;; k" := (andThen m (fun x => k))
  (at level 61, m at next level, right associativity).

(** [if err != nil { return fmt.Errorf(prefix + ": %v", err) }] *)
Definition wrap {R A : Type} (prefix : string) (x : A + error) : traced R A :=
  match x with
  | inl a => ret a
  | inr err => ([], inr (Fails (Errors.Plain (Errorf prefix err))))
  end.

Definition must {R A : Type} (x : option A) : traced R A :=
  match x with
  | Some a => ret a
  | None => ([], inr Panics)
  end.

Definition tell {R : Type} (c : call) : traced R unit := ([c], inl tt).

(** [defer res.Body.Close()]: the call runs when the rest has returned. *)
Definition defer {R A : Type} (c : call) (m : traced R A) : traced R A :=
  let '(t, r) := m in (t ++ [c], r).

(** The environment: the libraries ([url.Parse], [u.Query()],
    [values.Encode()], [u.String()], the case folding and the decoding of
    a report by [encoding/json]); why [http.NewRequestWithContext] refuses
    a method and a URL, if it does; what the token getter returns; what
    the transport returns for a request; what the decoder makes of a body;
    the error of closing a body, if any. *)
Record environment (H T B R : Type) : Type := mkEnvironment {
  Parse : string -> URL + error;
  ParseQuery : string -> Values;
  Encode : Values -> string;
  URLString : URL -> string;
  EqualFold : string -> string -> bool;
  zeroReport : R;
  unmarshalReport : json -> R -> R + error;
  requestError : string -> string -> option error;
  Token : T -> string + error;
  Do : H -> Request -> Response B + error;
  scan : B -> json + error;
  closeError : B -> option error
}.

Arguments mkEnvironment {H T B R}.
Arguments Parse {H T B R}.
Arguments ParseQuery {H T B R}.
Arguments Encode {H T B R}.
Arguments URLString {H T B R}.
Arguments EqualFold {H T B R}.
Arguments zeroReport {H T B R}.
Arguments unmarshalReport {H T B R}.
Arguments requestError {H T B R}.
Arguments Token {H T B R}.
Arguments Do {H T B R}.
Arguments scan {H T B R}.
Arguments closeError {H T B R}.

Section Requests.
Variables H T B R : Type.
Variable w : environment H T B R.

Definition NewRequestWithContext (method url : string) (body : payload)
    : Request + error :=
  match requestError w method url with
  | Some err => inr err
  | None => inl (mkRequest method url [] body)
  end.

Definition getToken (c : Client H T) (prefix : string) : traced R string :=
  _ <- tell GetToken ;; wrap prefix (Token w (tokenGetter c)).

Definition perform (c : Client H T) (req : Request)
    : traced R (Response B) :=
  _ <- tell (Perform req) ;; wrap "perform request" (Do w (client c) req).

(** [return newError(res)] *)
Definition returnNewError {A : Type} (res : Response B) : traced R A :=
  ([DecodeBody],
   inr (Fails (Errors.newError (EqualFold w) R (zeroReport w) (unmarshalReport w)
                 (StatusCode res) (scan w (Body res))))).

Definition Sync (c : Client H T) (marker : string) : traced R unit :=
  url <- must (syncURL (Parse w) (URLString w) (pipelineURL c) (group c)) ;;
  req <- wrap "create request"
           (NewRequestWithContext "POST" url (Text marker)) ;;
  token <- getToken c "get token" ;;
  let req := headerSet "authorization" ("Bearer " ++ token) req in
  res <- perform c req ;;
  defer CloseBody
    (if StatusCode res =? 204 then ret tt else returnNewError res).

Definition Send (c : Client H T) (topic : string)
    (sendRequest : option SendRequest) : traced R unit :=
  let body := JSON (marshalSendRequest sendRequest) in
  url <- must (sendURL (Parse w) (URLString w) (pipelineURL c) topic) ;;
  req <- wrap "create request" (NewRequestWithContext "POST" url body) ;;
  let req := headerSet "Content-type" "application/vnd.pipe.json.v1+json" req in
  let req := headerSet "Connection" "Keep-Alive" req in
  let req := headerSet "Accept" "application/json" req in
  token <- getToken c "get authorization token" ;;
  let req := headerSet "Authorization" ("Bearer " ++ token) req in
  res <- perform c req ;;
  defer CloseBody
    (if StatusCode res =? 200 then ret tt else returnNewError res).

(** [c.receive]: the body of the response, still open, or an error. *)
Definition receive (c : Client H T) (topic : string) (r : ReceiveRequest)
    : traced R B :=
  url <- must (receiveURL (Parse w) (ParseQuery w) (Encode w) (URLString w)
                 (pipelineURL c) (group c) topic r) ;;
  req <- wrap "create request" (NewRequestWithContext "GET" url NoBody) ;;
  let req := headerSet "accept" "application/json" req in
  token <- getToken c "get token" ;;
  let req := headerSet "authorization" ("Bearer " ++ token) req in
  res <- perform c req ;;
  if StatusCode res =? 200 then ret (Body res)
  else
    let err := Errors.newError (EqualFold w) R (zeroReport w) (unmarshalReport w)
                 (StatusCode res) (scan w (Body res)) in
    _ <- tell DecodeBody ;;
    _ <- tell CloseBody ;;
    match closeError w (Body res) with
    | Some cerr =>
        ([], inr (Fails (Errors.Plain (Errorf "close response body" cerr))))
    | None => ([], inr (Fails err))
    end.
End Requests.

Arguments NewRequestWithContext {H T B R} w method url body.
Arguments getToken {H T B R} w c prefix.
Arguments perform {H T B R} w c req.
Arguments returnNewError {H T B R} w {A} res.
Arguments Sync {H T B R} w c marker.
Arguments Send {H T B R} w c topic sendRequest.
Arguments receive {H T B R} w c topic r.

(** The requests performed, and the bodies received, closed and read. *)
Fixpoint performed (trace : list call) : list Request :=
  match trace with
  | [] => []
  | Perform req :: rest => req :: performed rest
  | _ :: rest => performed rest
  end.

Definition isCall (c c' : call) : bool :=
  match c, c' with
  | GetToken, GetToken => true
  | DecodeBody, DecodeBody => true
  | CloseBody, CloseBody => true
  | _, _ => false
  end.

Definition calls (c : call) (trace : list call) : nat :=
  List.length (filter (isCall c) trace).

(** The responses the transport has returned for the requests performed. *)
Definition answered {H B : Type} (Do : H -> Request -> Response B + error)
    (h : H) (trace : list call) : list (Response B) :=
  flat_map (fun req => match Do h req with
                       | inl res => [res]
                       | inr _ => []
                       end)
           (performed trace).

(** Nothing is done after the body is closed. *)
Fixpoint closedLast (trace : list call) : bool :=
  match trace with
  | [] => true
  | CloseBody :: rest => match rest with [] => true | _ => false end
  | _ :: rest => closedLast rest
  end.

(** An environment to run the requests in: the token getter returns
    "token", the transport answers every request with the given status and
    a body that holds the given JSON value, and closing the body fails or
    not as given. *)
Definition exampleEnvironment (status : Z) (body : json)
    (closing : option error) : environment unit unit unit unit :=
  mkEnvironment parseExample (fun _ => []) (fun _ => "") Host String.eqb
    tt (fun _ r => inl r) (fun _ _ => None) (fun _ => inl "token")
    (fun _ _ => inl (mkResponse status tt)) (fun _ => inl body)
    (fun _ => closing).

(** Nothing is observed after [close(out)]. *)
Fixpoint closed_last (seen : list obs) : bool :=
  match seen with
  | [] => true
  | ObsClose :: rest => match rest with [] => true | _ => false end
  | _ :: rest => closed_last rest
  end.

Definition parent_closed (st : ParentCtx.state) : bool :=
  match st with
  | ParentCtx.Closed => true
  | _ => false
  end.

Definition subctx_closed (st : SubCtx.state) : bool :=
  match st with
  | SubCtx.Closed => true
  | _ => false
  end.

(** * Properties *)

Lemma exactly_oneb_spec u : exactly_oneb u = true <-> exactly_one u.
Proof.
  unfold exactly_oneb, exactly_one.
  destruct (Env u), (Err u); split; intros H; try reflexivity;
    try discriminate; try (left; split; congruence);
    try (right; split; congruence);
    destruct H as [[H1 H2] | [H1 H2]]; congruence.
Qed.

(** ** Defaults of the receive options *)

(** C9. When an option is not specified (its value is not positive),
    [Receive] runs its envelope streams with a heartbeat timeout of 90
    seconds and its supervisor with a reconnection delay between 5 and 10
    seconds, bounds included. *)
Theorem C9_default_options (r : ReceiveRequest) :
  (forall t0 schedule,
      Receive r t0 schedule =
        system_run (pingTimeout r) (reconnectionDelay r) system_start t0
          schedule) /\
  (PingTimeout r <= 0 -> pingTimeout r = 90 * Second) /\
  (ReconnectionDelay r <= 0 ->
     5 * Second <= reconnectionDelay r <= 10 * Second).
Proof.
  split; [reflexivity |].
  unfold pingTimeout, reconnectionDelay.
  split; intros H.
  - destruct (0 <? PingTimeout r) eqn:E; [apply Z.ltb_lt in E; lia | reflexivity].
  - destruct (0 <? ReconnectionDelay r) eqn:E; [apply Z.ltb_lt in E; lia |].
    unfold Second, Millisecond; lia.
Qed.

(** [&ReceiveRequest{}], as in TestReceive. *)
Lemma C9_default_options_witness :
  pingTimeout (mkReceiveRequest 0 None None 0 0 0) = 90 * Second /\
  5 * Second
    <= reconnectionDelay (mkReceiveRequest 0 None None 0 0 0)
    <= 10 * Second.
Proof.
  split.
  - apply (proj1 (proj2 (C9_default_options
                           (mkReceiveRequest 0 None None 0 0 0)))).
    cbn; lia.
  - apply (proj2 (proj2 (C9_default_options
                           (mkReceiveRequest 0 None None 0 0 0)))).
    cbn; lia.
Defined.

(** ** The decoder and the envelope stream: shape of the units *)

Lemma decodeEnvelopes_offer_exactly_one D (Decode : D -> (Envelope + error) * D)
    (d : D) :
  exactly_one (fst (decodeEnvelopes_offer Decode d)).
Proof.
  unfold decodeEnvelopes_offer, decodeEnvelope.
  destruct (Decode d) as [[e | err] d']; cbn; unfold exactly_one; cbn.
  - left; split; congruence.
  - right; split; congruence.
Qed.

Lemma decodeEnvelopes_exactly_one D (Decode : D -> (Envelope + error) * D)
    (n : nat) :
  forall d, Forall exactly_one (decodeEnvelopes Decode n d).
Proof.
  induction n as [| n IH]; intros d; cbn [decodeEnvelopes].
  - constructor.
  - pose proof (decodeEnvelopes_offer_exactly_one D Decode d) as H.
    destruct (decodeEnvelopes_offer Decode d) as [u d'].
    constructor; [exact H | apply IH].
Qed.

Lemma received_feed D (Decode : D -> (Envelope + error) * D) schedule :
  forall d, Forall exactly_one (received (feed Decode d schedule)).
Proof.
  induction schedule as [| [now l] rest IH]; intros d; cbn [feed].
  - constructor.
  - destruct l; cbn [received]; try apply IH.
    pose proof (decodeEnvelopes_offer_exactly_one D Decode d) as H.
    destruct (decodeEnvelopes_offer Decode d) as [u d'].
    cbn [received]. constructor; [exact H | apply IH].
Qed.

Ltac step_cases l c :=
  unfold select_step;
  destruct c; destruct (envelopeReady l) eqn:?;
  repeat match goal with
    | |- context [match Err ?u with _ => _ end] => destruct (Err u) eqn:?
    | |- context [match Env ?u with _ => _ end] => destruct (Env u) eqn:?
    | |- context [if ?b then _ else _] => destruct b eqn:?
    end.

(** A unit sent on [out] is the one held ready, or one received later. *)
Lemma run_loop_sent T schedule :
  forall l clock u,
    In u (fst (run_loop T l clock schedule)) ->
    (envelopeReady l = true /\ u = envelope l) \/ In u (received schedule).
Proof.
  induction schedule as [| [now c] rest IH]; intros l clock u; cbn [run_loop].
  - intros [].
  - destruct (now <? clock); [intros [] |].
    destruct (select_step T l now c) as [[l' sent | why sent | sent] |] eqn:Hs;
      [| | | intros []].
    + specialize (IH l' now u).
      destruct (run_loop T l' now rest) as [out s]. cbn [fst] in *.
      revert Hs. step_cases l c; intros Hs; inversion Hs; subst; cbn;
        intros Hin; try (destruct Hin as [Hin | Hin]; [left; auto |]);
        try (destruct (IH Hin) as [[Hr He] | Hr]; cbn in *;
             [ try discriminate; subst; auto | auto ]).
    + revert Hs. step_cases l c; intros Hs; inversion Hs; subst; cbn;
        intros Hin; try contradiction;
        destruct Hin as [Hin | []]; left; auto.
    + revert Hs. step_cases l c; intros Hs; inversion Hs; subst; cbn;
        intros Hin; try contradiction;
        destruct Hin as [Hin | []]; left; auto.
Qed.

(** ** The liveness deadline *)

Lemma select_step_deadline T l now c l' sent :
  select_step T l now c = Some (Next l' sent) ->
  deadline l' =
    match c with
    | RecvIn u => if isPing u then Add now T else deadline l
    | _ => deadline l
    end.
Proof.
  step_cases l c; intros Hs; inversion Hs; subst; cbn; try reflexivity;
    try congruence.
  all: match goal with H : isPing ?u = _ |- _ => rewrite H; reflexivity end.
Qed.

Lemma select_step_rearm T l now :
  deadlineCh l <= now -> now <= deadline l ->
  select_step T l now DeadlineTick =
    Some (Next (mkLoop (envelope l) (envelopeReady l) (deadline l) (deadline l))
               None).
Proof.
  intros Hf Hd. unfold select_step, Before, Add, Sub.
  destruct (deadlineCh l <=? now) eqn:E1; [| apply Z.leb_gt in E1; lia].
  destruct (deadline l <? now) eqn:E2; [apply Z.ltb_lt in E2; lia |].
  do 3 f_equal. lia.
Qed.

Lemma select_step_expire T l now :
  deadlineCh l <= now -> deadline l < now ->
  select_step T l now DeadlineTick = Some (Return ExitDeadline None).
Proof.
  intros Hf Hd. unfold select_step, Before.
  destruct (deadlineCh l <=? now) eqn:E1; [| apply Z.leb_gt in E1; lia].
  destruct (deadline l <? now) eqn:E2; [reflexivity | apply Z.ltb_ge in E2; lia].
Qed.

Lemma select_step_exit_deadline T l now c sent :
  select_step T l now c = Some (Return ExitDeadline sent) ->
  c = DeadlineTick /\ deadline l < now.
Proof.
  unfold select_step. destruct c as [| u | |]; try discriminate.
  - destruct (envelopeReady l); [| discriminate].
    destruct (Err (envelope l)); [discriminate |].
    destruct (Env (envelope l)); [| discriminate].
    destruct (String.eqb _ _); discriminate.
  - destruct (envelopeReady l); [discriminate |].
    destruct (isEOF u); discriminate.
  - destruct (deadlineCh l <=? now); [| discriminate].
    unfold Before. destruct (deadline l <? now) eqn:E; [| discriminate].
    apply Z.ltb_lt in E. auto.
Qed.

Lemma never_expires T schedule :
  forall l clock,
    deadline l <= clock + T ->
    (forall pre now post,
        schedule = pre ++ (now, DeadlineTick) :: post ->
        now <= deadline l \/
        exists t, In t (heartbeats pre) /\ now <= Add t T) ->
    snd (run_loop T l clock schedule) <> Exited ExitDeadline.
Proof.
  induction schedule as [| [now c] rest IH]; intros l clock Hd Hf;
    cbn [run_loop].
  - discriminate.
  - destruct (now <? clock) eqn:Hclk; [discriminate |].
    apply Z.ltb_ge in Hclk.
    destruct (select_step T l now c) as [[l' sent | why sent | sent] |] eqn:Hs;
      try discriminate.
    + pose proof (select_step_deadline _ _ _ _ _ _ Hs) as Hdl.
      specialize (IH l' now).
      destruct (run_loop T l' now rest) as [out s]. cbn [snd] in *.
      apply IH.
      * rewrite Hdl. destruct c as [| u | |]; try lia.
        destruct (isPing u); unfold Add; lia.
      * intros pre now' post Heq.
        destruct (Hf ((now, c) :: pre) now' post) as [Hle | [t [Hin Hle]]].
        { cbn. now rewrite Heq. }
        { left. rewrite Hdl. destruct c as [| u | |]; try lia.
          destruct (isPing u) eqn:Hp; [| lia].
          unfold Add; lia. }
        { cbn [heartbeats] in Hin.
          destruct c as [| u | |]; try (right; eauto; fail).
          destruct (isPing u) eqn:Hp; [| right; eauto].
          destruct Hin as [<- | Hin]; [left; rewrite Hdl; exact Hle | right; eauto]. }
    + cbn [snd]. intros Heq. inversion Heq; subst why.
      apply select_step_exit_deadline in Hs. destruct Hs as [-> Hlt].
      destruct (Hf [] now rest eq_refl) as [Hle | [t [[] _]]]. lia.
Qed.

Lemma fresh_start T t0 schedule :
  0 <= T -> 0 < t0 -> fresh T schedule ->
  snd (run_loop T (loop_start T t0) t0 schedule) <> Exited ExitDeadline.
Proof.
  intros HT Ht0 Hf. apply never_expires.
  - cbn. unfold zeroTime. lia.
  - intros pre now post Heq. right. exact (Hf pre now post Heq).
Qed.

Lemma freshb_from_sound T schedule :
  forall seen,
    freshb_from T seen schedule = true ->
    forall pre now post,
      schedule = pre ++ (now, DeadlineTick) :: post ->
      exists t, (In t seen \/ In t (heartbeats pre)) /\ now <= Add t T.
Proof.
  induction schedule as [| [t0 c] rest IH]; intros seen Hb pre now post Heq.
  - destruct pre; discriminate.
  - destruct pre as [| [t1 c1] pre]; cbn in Heq; inversion Heq; subst.
    + cbn in Hb. apply andb_true_iff in Hb. destruct Hb as [Hex _].
      apply existsb_exists in Hex. destruct Hex as [t [Hin Hle]].
      apply Z.leb_le in Hle. exists t. auto.
    + cbn [heartbeats]. destruct c1 as [| u | |]; cbn in Hb.
      * destruct (IH _ Hb _ _ _ eq_refl) as [t [Hin Hle]]; eauto.
      * destruct (IH _ Hb _ _ _ eq_refl) as [t [Hin Hle]].
        destruct (isPing u); cbn [In] in *; exists t; intuition.
      * apply andb_true_iff in Hb. destruct Hb as [_ Hb].
        destruct (IH _ Hb _ _ _ eq_refl) as [t [Hin Hle]]; eauto.
      * destruct (IH _ Hb _ _ _ eq_refl) as [t [Hin Hle]]; eauto.
Qed.

Lemma freshb_sound T schedule :
  freshb_from T [] schedule = true -> fresh T schedule.
Proof.
  intros Hb pre now post Heq.
  destruct (freshb_from_sound T schedule [] Hb pre now post Heq)
    as [t [[[] | Hin] Hle]]; eauto.
Qed.

Lemma pingEvery_runs h (Hh : 0 < h) (n : nat) :
  forall t l clock,
    envelopeReady l = false -> deadlineCh l = t + 2 * h -> clock <= t + h ->
    exists l' clock',
      run_loop (2 * h) l clock (pingEvery h t n)
        = (repeat ping (2 * n), Running l' clock') /\
      envelopeReady l' = false /\
      deadlineCh l' = t + 2 * h * Z.of_nat n + 2 * h /\
      clock' <= t + 2 * h * Z.of_nat n + h.
Proof.
  induction n as [| n IH]; intros t l clock Hr Hc Hclk.
  - exists l, clock. split; [reflexivity |].
    change (Z.of_nat 0) with 0. repeat split; auto; lia.
  - set (l4 := mkLoop ping false (t + 2 * h + 2 * h) (t + 2 * h + 2 * h)).
    destruct (IH (t + 2 * h) l4 (t + 2 * h) eq_refl eq_refl ltac:(lia))
      as [l' [clock' [Hrun [Hr' [Hc' Hclk']]]]].
    exists l', clock'.
    split; [| rewrite Nat2Z.inj_succ; repeat split; auto; nia].
    replace (2 * S n)%nat with (S (S (2 * n)))%nat by lia.
    cbn [pingEvery run_loop repeat].
    replace (t + h <? clock) with false by (symmetry; apply Z.ltb_ge; lia).
    unfold select_step at 1. rewrite Hr.
    cbn [isEOF ping Err isPing isType Env envelopeOfType].
    cbn [Type_ String.eqb Ascii.eqb Bool.eqb].
    replace (t + h <? t + h) with false by (symmetry; apply Z.ltb_irrefl).
    unfold select_step at 1.
    cbn [envelopeReady envelope Err Env ping Type_ envelopeOfType].
    cbn [String.eqb Ascii.eqb Bool.eqb].
    replace (t + 2 * h <? t + h) with false by (symmetry; apply Z.ltb_ge; lia).
    unfold select_step at 1.
    cbn [envelopeReady isEOF ping Err isPing isType Env Type_ deadline deadlineCh
         envelopeOfType].
    cbn [String.eqb Ascii.eqb Bool.eqb].
    replace (t + 2 * h <? t + 2 * h) with false by (symmetry; apply Z.ltb_irrefl).
    unfold select_step at 1.
    cbn [envelopeReady envelope Err Env ping Type_ envelopeOfType].
    cbn [String.eqb Ascii.eqb Bool.eqb].
    unfold select_step at 1. cbn [deadlineCh deadline envelope envelopeReady].
    rewrite Hc. rewrite Z.leb_refl. unfold Before, Add, Sub.
    replace (t + 2 * h + 2 * h <? t + 2 * h) with false
      by (symmetry; apply Z.ltb_ge; lia).
    replace (t + 2 * h + (t + 2 * h + 2 * h - (t + 2 * h)))
      with (t + 2 * h + 2 * h) by lia.
    fold l4. rewrite Hrun. reflexivity.
Qed.

(** C1. The liveness deadline of the envelope stream moves, to
    [pingTimeout] after the present instant, exactly when a PING-typed
    envelope is received, and at no other turn of the loop; when the timer
    fires and the deadline has not passed, the loop arms the timer for the
    time that remains and goes on; hence a stream on which no deadline tick
    comes later than [pingTimeout] after a PING never times out, and in
    particular one that delivers a PING every half timeout runs for ever. *)
Theorem C1_ping_deadline :
  (forall T l now c l' sent,
      select_step T l now c = Some (Next l' sent) ->
      deadline l' =
        match c with
        | RecvIn u => if isPing u then Add now T else deadline l
        | _ => deadline l
        end) /\
  (forall T l now,
      deadlineCh l <= now -> now <= deadline l ->
      select_step T l now DeadlineTick =
        Some (Next (mkLoop (envelope l) (envelopeReady l) (deadline l)
                      (deadline l)) None)) /\
  (forall T t0 schedule,
      0 <= T -> 0 < t0 -> fresh T schedule ->
      snd (run_loop T (loop_start T t0) t0 schedule) <> Exited ExitDeadline) /\
  (forall h t0 n,
      0 < h -> 0 < t0 ->
      exists l clock,
        run_loop (2 * h) (loop_start (2 * h) t0) t0 (pingEvery h t0 n)
          = (repeat ping (2 * n), Running l clock)).
Proof.
  split; [exact select_step_deadline |].
  split; [exact select_step_rearm |].
  split; [exact fresh_start |].
  intros h t0 n Hh Ht0.
  destruct (pingEvery_runs h Hh n t0 (loop_start (2 * h) t0) t0
              eq_refl eq_refl ltac:(lia))
    as [l [clock [Hrun _]]].
  eauto.
Qed.

Lemma C1_ping_deadline_witness :
  snd (run_loop 4 (loop_start 4 100) 100 (pingEvery 2 100 3))
    <> Exited ExitDeadline /\
  exists l clock,
    run_loop (2 * 2) (loop_start (2 * 2) 100) 100 (pingEvery 2 100 3)
      = (repeat ping (2 * 3), Running l clock).
Proof.
  split.
  - apply (proj1 (proj2 (proj2 C1_ping_deadline)) 4 100 (pingEvery 2 100 3));
      [lia | lia | apply freshb_sound; reflexivity].
  - apply (proj2 (proj2 (proj2 C1_ping_deadline)) 2 100 3%nat); lia.
Defined.

(** ** Expiry of the deadline *)

Lemma run_loop_app T s1 :
  forall l clock out l' clock' s2,
    run_loop T l clock s1 = (out, Running l' clock') ->
    run_loop T l clock (s1 ++ s2) =
      (out ++ fst (run_loop T l' clock' s2), snd (run_loop T l' clock' s2)).
Proof.
  induction s1 as [| [now c] rest IH]; intros l clock out l' clock' s2;
    cbn [run_loop app].
  - intros H; inversion H; subst. cbn. now destruct (run_loop T l' clock' s2).
  - destruct (now <? clock); [discriminate |].
    destruct (select_step T l now c) as [[l1 sent | why sent | sent] |];
      try discriminate.
    destruct (run_loop T l1 now rest) as [out1 s] eqn:Hr.
    + intros H; inversion H; subst.
      rewrite (IH _ _ _ _ _ s2 Hr).
      destruct sent; reflexivity.
Qed.

(** While the loop runs, no unit sent carries an error. *)
Lemma run_loop_running_no_error T schedule :
  forall l clock out l' clock',
    run_loop T l clock schedule = (out, Running l' clock') ->
    Forall (fun u => Err u = None) out.
Proof.
  induction schedule as [| [now c] rest IH]; intros l clock out l' clock';
    cbn [run_loop].
  - intros H; inversion H; constructor.
  - destruct (now <? clock); [discriminate |].
    destruct (select_step T l now c) as [[l1 sent | why sent | sent] |] eqn:Hs;
      try discriminate.
    destruct (run_loop T l1 now rest) as [out1 s] eqn:Hr.
    + intros H; inversion H; subst.
      specialize (IH _ _ _ _ _ Hr).
      destruct sent as [u |]; [| exact IH].
      constructor; [| exact IH].
      revert Hs. step_cases l c; intros Hs; inversion Hs; subst; assumption.
Qed.

(** The deadline is the zero instant or a heartbeat plus the timeout; the
    timer is armed for the first timeout or for such a deadline. *)
Lemma run_loop_deadlines T schedule :
  forall l clock out l' clock',
    run_loop T l clock schedule = (out, Running l' clock') ->
    (deadline l' = deadline l \/
     exists t, In t (heartbeats schedule) /\ deadline l' = Add t T) /\
    (deadlineCh l' = deadlineCh l \/ deadlineCh l' = deadline l \/
     exists t, In t (heartbeats schedule) /\ deadlineCh l' = Add t T) /\
    clock <= clock'.
Proof.
  induction schedule as [| [now c] rest IH]; intros l clock out l' clock';
    cbn [run_loop].
  - intros H; inversion H; subst. repeat split; auto; lia.
  - destruct (now <? clock) eqn:Hclk; [discriminate |].
    apply Z.ltb_ge in Hclk.
    destruct (select_step T l now c) as [[l1 sent | why sent | sent] |] eqn:Hs;
      try discriminate; try (destruct sent; discriminate).
    destruct (run_loop T l1 now rest) as [out1 s] eqn:Hr.
    intros H; inversion H; subst.
    destruct (IH _ _ _ _ _ Hr) as [Hd [Hc Hk]].
    pose proof (select_step_deadline _ _ _ _ _ _ Hs) as Hdl.
    assert (deadlineCh l1 = deadlineCh l \/ deadlineCh l1 = deadline l) as Hch.
    { revert Hs. unfold select_step, Add, Sub.
      destruct c as [| u | |]; destruct (envelopeReady l);
        repeat match goal with
          | |- context [match Err ?u with _ => _ end] => destruct (Err u)
          | |- context [match Env ?u with _ => _ end] => destruct (Env u)
          | |- context [if ?b then _ else _] => destruct b
          end; intros Hs; inversion Hs; subst; cbn; auto; right; lia. }
    cbn [heartbeats].
    split; [| split; [| lia]].
    + destruct Hd as [Hd | [t [Hin Hd]]].
      * rewrite Hd, Hdl. destruct c as [| u | |]; auto.
        destruct (isPing u); auto. right; exists now; cbn; auto.
      * right. exists t. split; auto.
        destruct c as [| u | |]; auto. destruct (isPing u); cbn; auto.
    + assert (forall t, In t (heartbeats rest) ->
                match c with
                | RecvIn u => In t (if isPing u then now :: heartbeats rest
                                    else heartbeats rest)
                | _ => In t (heartbeats rest)
                end) as Hw.
      { intros t Hin. destruct c as [| u | |]; auto.
        destruct (isPing u); cbn; auto. }
      destruct Hc as [Hc | [Hc | [t [Hin Hc]]]].
      * rewrite Hc. destruct Hch as [-> | ->]; auto.
      * rewrite Hc, Hdl. destruct c as [| u | |]; auto.
        destruct (isPing u); auto. right; right; exists now; cbn; auto.
      * right; right. exists t. split; auto.
        specialize (Hw t Hin). destruct c as [| u | |]; auto.
Qed.

Lemma feed_app D (Decode : D -> (Envelope + error) * D) s1 :
  forall d s2,
    feed Decode d (s1 ++ s2) =
      feed Decode d s1 ++ feed Decode (decoder_after Decode d s1) s2.
Proof.
  induction s1 as [| [now l] rest IH]; intros d s2; cbn [app feed decoder_after].
  - reflexivity.
  - destruct l; cbn [app]; try (rewrite IH; reflexivity).
    destruct (decodeEnvelopes_offer Decode d) as [u d'].
    cbn [snd app]. rewrite IH. reflexivity.
Qed.

Lemma envelopeStream_app D (Decode : D -> (Envelope + error) * D) body T t0
    s1 s2 out l clock :
  envelopeStream Decode body T t0 s1 = (out, Running l clock) ->
  envelopeStream Decode body T t0 (s1 ++ s2) =
    (out ++ fst (run_loop T l clock
                   (feed Decode (decoder_after Decode body s1) s2)),
     snd (run_loop T l clock (feed Decode (decoder_after Decode body s1) s2))).
Proof.
  unfold envelopeStream. intros H. rewrite feed_app.
  exact (run_loop_app T _ _ _ _ _ _ _ H).
Qed.

(** C2. When more than [pingTimeout] has gone by since the stream started
    and since every PING-typed envelope it received (so also when nothing
    was received at all), the timer has fired, and the turn of the loop
    that takes it returns without sending anything: the stream ends with no
    error unit on its output, the output channel closed and the body
    closed. *)
Theorem C2_ping_timeout D (Decode : D -> (Envelope + error) * D) (body : D)
    T t0 schedule out l clock now :
  0 <= T -> 0 < t0 ->
  envelopeStream Decode body T t0 schedule = (out, Running l clock) ->
  clock <= now ->
  Add t0 T < now ->
  (forall t, In t (heartbeats (feed Decode body schedule)) -> Add t T < now) ->
  let r := envelopeStream Decode body T t0 (schedule ++ [(now, LDeadline)]) in
  r = (out, Exited ExitDeadline) /\
  Forall (fun u => Err u = None) out /\
  outClosed (resources_of (snd r)) = true /\
  bodyClosed (resources_of (snd r)) = true.
Proof.
  intros HT Ht0 Hrun Hclk Hstart Hbeats r.
  assert (r = (out, Exited ExitDeadline)) as Hr; subst r;
    [| rewrite Hr; split; [reflexivity | split; [| split; reflexivity]]].
  - rewrite (envelopeStream_app _ _ _ _ _ _ _ _ _ _ Hrun).
    unfold envelopeStream in Hrun.
    destruct (run_loop_deadlines _ _ _ _ _ _ _ Hrun) as [Hd [Hc _]].
    cbn [feed run_loop]. cbn [loop_start deadline deadlineCh] in Hd, Hc.
    replace (now <? clock) with false by (symmetry; apply Z.ltb_ge; lia).
    rewrite select_step_expire.
    + cbn. now rewrite app_nil_r.
    + destruct Hc as [-> | [-> | [t [Hin ->]]]];
        [lia | unfold zeroTime, Add in *; lia | specialize (Hbeats t Hin); lia].
    + destruct Hd as [-> | [t [Hin ->]]];
        [unfold zeroTime, Add in *; lia | exact (Hbeats t Hin)].
  - unfold envelopeStream in Hrun.
    exact (run_loop_running_no_error _ _ _ _ _ _ _ Hrun).
Qed.

(** A DATA envelope, then a PING, each taken by the consumer, then
    silence until the timeout has gone by (TestEnvelopeStreamPingTimeout);
    and a body on which nothing arrives at all. *)
Lemma C2_ping_timeout_witness :
  envelopeStream scriptedDecode
    [Parsed (envelopeOfType "DATA"); Parsed (envelopeOfType "PING")] 10 100
    ([(101, LRecv); (101, LSend); (102, LRecv); (102, LSend)]
       ++ [(113, LDeadline)])
  = ([mkUnit (Some (envelopeOfType "DATA")) None; ping], Exited ExitDeadline) /\
  envelopeStream scriptedDecode [] 10 100 ([] ++ [(111, LDeadline)])
  = ([], Exited ExitDeadline).
Proof.
  split.
  - refine (proj1 (C2_ping_timeout _ scriptedDecode
              [Parsed (envelopeOfType "DATA"); Parsed (envelopeOfType "PING")]
              10 100 [(101, LRecv); (101, LSend); (102, LRecv); (102, LSend)]
              _ _ _ 113 _ _ eq_refl _ _ _)).
    + lia.
    + lia.
    + cbn. lia.
    + cbn. lia.
    + cbn. intros t [<- | []]. cbn. lia.
  - refine (proj1 (C2_ping_timeout _ scriptedDecode [] 10 100 []
              _ _ _ 111 _ _ eq_refl _ _ _)).
    + lia.
    + lia.
    + cbn. lia.
    + cbn. lia.
    + cbn. intros t [].
Defined.

(** ** The last unit of a stream: a decode error or END_OF_STREAM *)









(** ** Exactly one field of every unit is set *)

Lemma envelopeStream_exactly_one D (Decode : D -> (Envelope + error) * D)
    body T t0 schedule :
  Forall exactly_one (fst (envelopeStream Decode body T t0 schedule)).
Proof.
  apply Forall_forall. intros u Hin. unfold envelopeStream in Hin.
  apply run_loop_sent in Hin. destruct Hin as [[Hr _] | Hin].
  - discriminate.
  - pose proof (received_feed D Decode schedule body) as H.
    rewrite Forall_forall in H. auto.
Qed.

Lemma getStreamError_exactly_one err : exactly_one (getStreamError err).
Proof. right. split; [reflexivity | discriminate]. Qed.

(** The supervisor emits the error units it makes and the units it was
    delivered, and nothing else. *)
Lemma reconnect_emits delay schedule :
  forall st clock st' clock' seen u,
    execute (ParentCtx.step delay) st clock schedule = Some (st', clock', seen) ->
    In u (emitted seen) ->
    (exists err, u = getStreamError err) \/ In u (held st) \/
    In u (delivered schedule).
Proof.
  induction schedule as [| [now l] rest IH];
    intros st clock st' clock' seen u; cbn [execute].
  - intros H; inversion H; subst. intros [].
  - destruct (now <? clock); [discriminate |].
    destruct (ParentCtx.step delay st now l) as [[st1 seen1] |] eqn:Hs;
      [| discriminate].
    destruct (execute (ParentCtx.step delay) st1 now rest)
      as [[[st2 clock2] seen2] |] eqn:He; [| discriminate].
    intros H; inversion H; subst. intros Hin.
    assert (In u (emitted seen1) \/ In u (emitted seen2)) as [Hin1 | Hin2].
    { clear - Hin. induction seen1 as [| o seen1 IHs]; cbn in *; auto.
      destruct o; cbn in *; auto. destruct Hin as [-> | Hin]; auto.
      destruct (IHs Hin); auto. }
    + clear IH He.
      destruct st as [| | err | envelope ready open | armed |];
        destruct l as [| [| err'] | | [u' |] | |]; cbn in Hs;
        try discriminate;
        repeat match type of Hs with
          | context [if ?b then _ else _] => destruct b eqn:?
          end;
        inversion Hs; subst; cbn in Hin1; try contradiction;
        destruct Hin1 as [<- | []]; eauto.
      right; left. cbn. auto.
    + destruct (IH _ _ _ _ _ _ He Hin2) as [Hm | [Hh | Hd]]; auto.
      * clear IH He. right.
        destruct st as [| | err | envelope ready open | armed |];
          destruct l as [| [| err'] | | [u' |] | |]; cbn in Hs;
          try discriminate;
          repeat match type of Hs with
            | context [if ?b then _ else _] => destruct b eqn:?
            end;
          inversion Hs; subst; cbn in Hh; try contradiction;
          unfold ParentCtx.loop_top in *; cbn in *;
          repeat match goal with
            | H : context [if ?b then _ else _] |- _ => destruct b eqn:?
            end; cbn in *; try contradiction; intuition.
      * right; right. destruct l as [| r | | [u' |] | |]; cbn; auto.
Qed.

(** C7. Every unit sent on a channel of the core has exactly one of its two
    fields set: the units the decoder offers, the units the envelope stream
    sends, and the units the reconnecting supervisor sends when the streams
    it reads from keep to the same rule (as the envelope stream does). *)
Theorem C7_exactly_one :
  (forall D (Decode : D -> (Envelope + error) * D) n d,
      Forall exactly_one (decodeEnvelopes Decode n d)) /\
  (forall D (Decode : D -> (Envelope + error) * D) body T t0 schedule,
      Forall exactly_one (fst (envelopeStream Decode body T t0 schedule))) /\
  (forall delay t0 schedule st clock seen,
      reconnectStream delay t0 schedule = Some (st, clock, seen) ->
      Forall exactly_one (delivered schedule) ->
      Forall exactly_one (emitted seen)).
Proof.
  split; [exact decodeEnvelopes_exactly_one |].
  split; [exact envelopeStream_exactly_one |].
  intros delay t0 schedule st clock seen Hrun Hin.
  apply Forall_forall. intros u Hu.
  destruct (reconnect_emits _ _ _ _ _ _ _ _ Hrun Hu) as [[err ->] | [[] | Hd]].
  - apply getStreamError_exactly_one.
  - rewrite Forall_forall in Hin. auto.
Qed.

(** A failed attempt, then a stream that delivers one PING and closes. *)
Lemma C7_exactly_one_witness :
  Forall exactly_one
    (emitted [ObsCall 0 ParentContext;
              ObsEmit (getStreamError (errorString "nope"));
              ObsCall 7 ParentContext; ObsEmit ping]).
Proof.
  apply (proj2 (proj2 C7_exactly_one) 5 0
           [(0, Call); (1, Factory (Failed (errorString "nope")));
            (2, OutSent); (7, TimerFired); (7, Call); (8, Factory Opened);
            (9, InRecv (Some ping)); (9, OutSent); (10, InRecv None)]
           (ParentCtx.Delay 10) 10).
  - reflexivity.
  - constructor; [left; split; cbn; congruence | constructor].
Defined.

(** ** The reconnecting supervisor: failed attempts and the delay *)

Lemma emitted_app s1 s2 : emitted (s1 ++ s2) = emitted s1 ++ emitted s2.
Proof.
  induction s1 as [| o s1 IH]; cbn; [reflexivity |].
  destruct o; cbn; rewrite IH; reflexivity.
Qed.

Lemma attempts_app s1 s2 : attempts (s1 ++ s2) = attempts s1 ++ attempts s2.
Proof.
  induction s1 as [| o s1 IH]; cbn; [reflexivity |].
  destruct o; cbn; rewrite IH; reflexivity.
Qed.

Ltac parent_cases st l Hs :=
  destruct st as [| | ?err | ?envelope ?ready ?open | ?armed |];
  destruct l as [| [| ?err'] | | [?u |] | |]; cbn in Hs;
  try discriminate;
  unfold ParentCtx.loop_top in Hs; cbn in Hs;
  repeat match type of Hs with
    | context [if ?b then _ else _] => destruct b eqn:?
    end;
  try discriminate;
  inversion Hs; subst; clear Hs.

Lemma spaced_since delay schedule :
  forall st clock tc st' clock' seen,
    since delay tc st clock ->
    execute (ParentCtx.step delay) st clock schedule = Some (st', clock', seen) ->
    spaced delay (tc :: attempts seen).
Proof.
  induction schedule as [| [now l] rest IH];
    intros st clock tc st' clock' seen Hinv; cbn [execute].
  - intros H; inversion H; subst. exact I.
  - destruct (now <? clock) eqn:Hclk; [discriminate |].
    apply Z.ltb_ge in Hclk.
    destruct (ParentCtx.step delay st now l) as [[st1 seen1] |] eqn:Hs;
      [| discriminate].
    destruct (execute (ParentCtx.step delay) st1 now rest)
      as [[[st2 clock2] seen2] |] eqn:He; [| discriminate].
    intros H; inversion H; subst. rewrite attempts_app.
    parent_cases st l Hs; cbn [attempts app since] in *;
      try (apply (IH _ _ tc _ _ _) in He; [exact He |];
           cbn [since]; try exact I; unfold Add in *;
           repeat match goal with
             | H : (_ <=? _) = true |- _ => apply Z.leb_le in H
             end; lia).
    (* the attempt itself *)
    { split; [unfold Add in *; lia |].
      apply (IH _ _ now _ _ _) in He; [exact He | cbn; lia]. }
Qed.

Lemma reconnect_spaced delay t0 schedule st clock seen :
  reconnectStream delay t0 schedule = Some (st, clock, seen) ->
  spaced delay (attempts seen).
Proof.
  unfold reconnectStream. destruct schedule as [| [now l] rest]; cbn [execute].
  - intros H; inversion H; subst. exact I.
  - destruct (now <? t0); [discriminate |].
    destruct l; cbn [ParentCtx.step]; try discriminate.
    destruct (execute (ParentCtx.step delay) ParentCtx.Calling now rest)
      as [[[st2 clock2] seen2] |] eqn:He; [| discriminate].
    intros H; inversion H; subst. cbn [app attempts].
    apply (spaced_since delay rest ParentCtx.Calling now now st clock seen2);
      [cbn; lia | exact He].
Qed.

(** From a failed attempt to the next one, when the context is not done:
    the error unit is sent, then the timer fires. *)
Lemma failed_then_next delay err (t1 : Time) (mid : list (Time * rlabel))
    (t2 : Time) st clock seen :
  execute (ParentCtx.step delay) (ParentCtx.ErrSend err) t1
    (mid ++ [(t2, Call)]) = Some (st, clock, seen) ->
  (forall t, ~ In (t, Done) mid) ->
  (forall t, ~ In (t, Call) mid) ->
  exists ts tf,
    mid = [(ts, OutSent); (tf, TimerFired)] /\
    t1 <= ts /\ Add ts delay <= tf /\ tf <= t2 /\
    seen = [ObsEmit (getStreamError err); ObsCall t2 ParentContext].
Proof.
  intros Hrun Hdone Hcall.
  destruct mid as [| [ts l1] mid]; cbn [app execute] in Hrun.
  { destruct (t2 <? t1); discriminate. }
  destruct (ts <? t1) eqn:H1; [discriminate |]. apply Z.ltb_ge in H1.
  destruct l1; cbn [ParentCtx.step] in Hrun; try discriminate;
    [| exfalso; apply (Hdone ts); left; reflexivity].
  destruct mid as [| [tf l2] mid]; cbn [app execute] in Hrun.
  { destruct (t2 <? ts); discriminate. }
  destruct (tf <? ts) eqn:H2; [discriminate |]. apply Z.ltb_ge in H2.
  destruct l2; cbn [ParentCtx.step] in Hrun; try discriminate;
    [| exfalso; apply (Hdone tf); right; left; reflexivity].
  destruct (Add ts delay <=? tf) eqn:H3; [| discriminate].
  apply Z.leb_le in H3.
  destruct mid as [| [tx l3] mid]; cbn [app execute] in Hrun.
  - destruct (t2 <? tf) eqn:H4; [discriminate |]. apply Z.ltb_ge in H4.
    cbn in Hrun. inversion Hrun; subst.
    exists ts, tf. repeat split; auto.
  - destruct (tx <? tf); [discriminate |].
    destruct l3; cbn [ParentCtx.step] in Hrun; try discriminate.
    exfalso. apply (Hcall tx). right; right; left; reflexivity.
Qed.

(** C4. A stream factory that returns an error makes the supervisor send
    one unit, whose error is the factory error under the prefix
    "get stream", and then wait for the delay: when the context is not
    done, what happens between the factory's return and the next attempt
    is the send of that unit and, [delay] or more later, the timer. In
    every execution two successive connection attempts lie at least
    [delay] apart. *)
Theorem C4_factory_error :
  (forall delay err (t1 tr : Time) (mid : list (Time * rlabel)) (t2 : Time)
          st clock seen,
      execute (ParentCtx.step delay) ParentCtx.Calling t1
        ((tr, Factory (Failed err)) :: mid ++ [(t2, Call)])
        = Some (st, clock, seen) ->
      (forall t, ~ In (t, Done) mid) ->
      (forall t, ~ In (t, Call) mid) ->
      exists ts tf,
        mid = [(ts, OutSent); (tf, TimerFired)] /\
        tr <= ts /\ Add ts delay <= tf /\ tf <= t2 /\
        emitted seen =
          [mkUnit None
             (Some (errorString ("get stream: " ++ Error err)%string))]) /\
  (forall delay t0 schedule st clock seen,
      reconnectStream delay t0 schedule = Some (st, clock, seen) ->
      spaced delay (attempts seen)).
Proof.
  split; [| exact reconnect_spaced].
  intros delay err t1 tr mid t2 st clock seen Hrun Hdone Hcall.
  cbn [execute] in Hrun.
  destruct (tr <? t1); [discriminate |]. cbn [ParentCtx.step] in Hrun.
  destruct (execute (ParentCtx.step delay) (ParentCtx.ErrSend err) tr
              (mid ++ [(t2, Call)])) as [[[st2 clock2] seen2] |] eqn:He;
    [| discriminate].
  inversion Hrun; subst.
  destruct (failed_then_next _ _ _ _ _ _ _ _ He Hdone Hcall)
    as [ts [tf [-> [H1 [H2 [H3 ->]]]]]].
  exists ts, tf. repeat split; auto.
Qed.

(** TestReconnectStreamDelay: two failed attempts, one millisecond of
    delay. *)
Lemma C4_factory_error_witness :
  (exists ts tf : Time,
      [(12, OutSent); (12 + Millisecond, TimerFired)]
        = [(ts, OutSent); (tf, TimerFired)] /\
      11 <= ts /\ Add ts Millisecond <= tf /\ tf <= 10 + Millisecond + 3 /\
      emitted [ObsEmit (getStreamError (errorString "first error"));
               ObsCall (10 + Millisecond + 3) ParentContext]
        = [mkUnit None (Some (errorString "get stream: first error"))]) /\
  spaced Millisecond [10; 10 + Millisecond + 3].
Proof.
  split.
  - apply (proj1 C4_factory_error Millisecond (errorString "first error")
             10 11 [(12, OutSent); (12 + Millisecond, TimerFired)]
             (10 + Millisecond + 3) ParentCtx.Calling (10 + Millisecond + 3)).
    + reflexivity.
    + intros t [H | [H | []]]; discriminate H.
    + intros t [H | [H | []]]; discriminate H.
  - apply (proj2 C4_factory_error Millisecond 10
             [(10, Call); (11, Factory (Failed (errorString "first error")));
              (12, OutSent); (12 + Millisecond, TimerFired);
              (10 + Millisecond + 3, Call);
              (10 + Millisecond + 4,
               Factory (Failed (errorString "second error")));
              (10 + Millisecond + 5, OutSent)]
             (ParentCtx.Delay (10 + Millisecond + 5)) (10 + Millisecond + 5)
             [ObsCall 10 ParentContext;
              ObsEmit (getStreamError (errorString "first error"));
              ObsCall (10 + Millisecond + 3) ParentContext;
              ObsEmit (getStreamError (errorString "second error"))]).
    reflexivity.
Defined.

(** ** The two versions of the supervisor *)

(** The source closes at instant 1 and the next attempt is made at once,
    with a delay of 5: an execution of the sub-context version only. *)
Lemma C10_versions_differ : ~ same_supervisors.
Proof.
  intros H.
  specialize (H 5 0 [(0, Call); (0, Factory Opened); (1, InRecv None); (1, Call)]).
  cbv in H. discriminate H.
Qed.

Lemma alike_simulation delay schedule :
  forall flag stP stS (clockP clockS : Time) stP' clockP' seenP,
    alike flag stP stS -> clockS <= clockP ->
    (forall t, ~ In (t, Done) schedule) ->
    execute (ParentCtx.step delay) stP clockP schedule
      = Some (stP', clockP', seenP) ->
    exists stS' clockS' seenS,
      execute (SubCtx.step delay) stS clockS
        (without_close_delay flag schedule) = Some (stS', clockS', seenS) /\
      emitted seenS = emitted seenP /\ attempts seenS = attempts seenP.
Proof.
  induction schedule as [| [now l] rest IH];
    intros flag stP stS clockP clockS stP' clockP' seenP Hal Hclk Hdone;
    cbn [execute].
  - intros H; inversion H; subst. exists stS, clockS, []. cbn. auto.
  - destruct (now <? clockP) eqn:Hc; [discriminate |]. apply Z.ltb_ge in Hc.
    destruct (ParentCtx.step delay stP now l) as [[stP1 seenP1] |] eqn:Hs;
      [| discriminate].
    destruct (execute (ParentCtx.step delay) stP1 now rest)
      as [[[stP2 clockP2] seenP2] |] eqn:He; [| discriminate].
    intros H; inversion H; subst.
    assert (forall t, ~ In (t, Done) rest) as Hdone'
      by (intros t Hin; apply (Hdone t); right; exact Hin).
    assert (l <> Done) as Hl
      by (intros ->; apply (Hdone now); left; reflexivity).
    assert ((now <? clockS) = false) as HcS by (apply Z.ltb_ge; lia).
    parent_cases stP l Hs; try congruence; inversion Hal; subst;
      try match goal with
        | H : negb _ && _ = _ |- _ => cbn in H; discriminate H
        end;
      cbn [without_close_delay execute SubCtx.step];
      try rewrite HcS;
      repeat match goal with
        | H : (_ <=? _) = true |- _ => rewrite H
        end;
      unfold SubCtx.again;
      try match goal with
        | He : execute (ParentCtx.step delay) ?p now rest = _
          |- context [execute (SubCtx.step delay) ?s now
                        (without_close_delay ?f rest)] =>
            let Hal' := fresh in
            assert (alike f p s) as Hal' by constructor;
            destruct (IH f p s now now _ _ _ Hal' (Z.le_refl _) Hdone' He)
              as [stS' [clockS' [seenS [HeS [Hem Hat]]]]];
            rewrite HeS; eexists _, _, _; split; [reflexivity |];
            rewrite ?emitted_app, ?attempts_app, Hem, Hat; split; reflexivity
        end.
    (* the timer after a closed source: a step of one version only *)
    destruct (IH false ParentCtx.Connecting SubCtx.Connecting now clockS
                _ _ _ alike_connecting ltac:(lia) Hdone' He)
      as [stS' [clockS' [seenS [HeS [Hem Hat]]]]].
    exists stS', clockS', seenS. cbn [app]. auto.
Qed.

(** C10, amended. The two versions are not equivalent: after a source has
    closed, the sub-context version is at once at its next attempt, while
    the parent-context version waits for the delay first. When the context
    is not done, every execution of the parent-context version is, once the
    timers that follow the closing of a source are left out, an execution
    of the sub-context version with the same units sent and the same
    connection attempts at the same instants. *)
Theorem C10_parent_refines_subctx :
  (forall delay t0 schedule st clock seen,
      reconnectStream delay t0 schedule = Some (st, clock, seen) ->
      (forall t, ~ In (t, Done) schedule) ->
      exists st' clock' seen',
        reconnectStream_subctx delay t0 (without_close_delay false schedule)
          = Some (st', clock', seen') /\
        emitted seen' = emitted seen /\ attempts seen' = attempts seen) /\
  (forall delay now,
      SubCtx.step delay SubCtx.Receiving now (InRecv None)
        = Some (SubCtx.Connecting, [ObsCancel])) /\
  (forall delay envelope now,
      ParentCtx.step delay (ParentCtx.Forwarding envelope false true) now
        (InRecv None) = Some (ParentCtx.Delay now, [])) /\
  (forall delay armed now l st seen,
      ParentCtx.step delay (ParentCtx.Delay armed) now l = Some (st, seen) ->
      l = Done \/ (l = TimerFired /\ Add armed delay <= now)).
Proof.
  split; [| split; [| split]].
  - intros delay t0 schedule st clock seen Hrun Hdone.
    exact (alike_simulation delay schedule false _ _ t0 t0 _ _ _
             alike_connecting (Z.le_refl _) Hdone Hrun).
  - reflexivity.
  - reflexivity.
  - intros delay armed now l st seen H.
    destruct l; cbn in H; try discriminate; auto.
    destruct (Add armed delay <=? now) eqn:E; [| discriminate].
    apply Z.leb_le in E. auto.
Qed.

(** TestReconnectStream with a delay of 5: two sources, one unit each. *)
Lemma C10_parent_refines_subctx_witness :
  exists st' clock' seen',
    reconnectStream_subctx 5 0
      (without_close_delay false
         [(0, Call); (1, Factory Opened);
          (2, InRecv (Some (mkUnit (Some (envelopeOfType "1")) None)));
          (3, OutSent); (4, InRecv None); (9, TimerFired); (9, Call);
          (10, Factory Opened);
          (11, InRecv (Some (mkUnit (Some (envelopeOfType "2")) None)));
          (12, OutSent)])
      = Some (st', clock', seen') /\
    emitted seen' =
      emitted [ObsCall 0 ParentContext;
               ObsEmit (mkUnit (Some (envelopeOfType "1")) None);
               ObsCall 9 ParentContext;
               ObsEmit (mkUnit (Some (envelopeOfType "2")) None)] /\
    attempts seen' =
      attempts [ObsCall 0 ParentContext;
                ObsEmit (mkUnit (Some (envelopeOfType "1")) None);
                ObsCall 9 ParentContext;
                ObsEmit (mkUnit (Some (envelopeOfType "2")) None)].
Proof.
  apply (proj1 C10_parent_refines_subctx 5 0 _
           (ParentCtx.Forwarding (mkUnit (Some (envelopeOfType "2")) None)
              false true) 12).
  - reflexivity.
  - intros t Hin. cbn in Hin.
    repeat (destruct Hin as [Hin | Hin]; [discriminate Hin |]). exact Hin.
Defined.

(** ** One connection at a time *)






Lemma Forall_ctx_done s s' l :
  cancelled s' = cancelled s ->
  Forall (fun g => ctx_done s g = true) l ->
  Forall (fun g => ctx_done s' g = true) l.
Proof.
  intros Hc H. unfold ctx_done in *. rewrite Hc. exact H.
Qed.












(** ** Envelopes on the wire: no field is lost *)


Section Struct.
Variable S : Type.
Variable set : S -> string * json -> S + error.
Variable enc : S -> list (string * json).
Variable wfMember : string * json -> bool.
Variable R : json -> json -> Prop.

(** Setting a well-formed member succeeds, shows in what is written back,
    and leaves the members of other names as they were. *)
Hypothesis set_ok :
  forall s name v,
    wfMember (name, v) = true ->
    exists s',
      set s (name, v) = inl s' /\
      (exists v', In (name, v') (enc s') /\ R v v') /\
      (forall name' x, name' <> name ->
                       In (name', x) (enc s) -> In (name', x) (enc s')).

End Struct.




Section WireProofs.
Variable EqualFold : string -> string -> bool.





End WireProofs.


(** * Further properties of the code *)

(** ** The envelope stream keeps the order of the units *)

Lemma prefix_refl {A : Type} (l : list A) : prefix l l.
Proof. exists []. symmetry. apply app_nil_r. Qed.

Lemma prefix_nil {A : Type} (l : list A) : prefix [] l.
Proof. exists l. reflexivity. Qed.

Lemma prefix_app {A : Type} (l l1 l2 : list A) :
  prefix l1 l2 -> prefix (l ++ l1) (l ++ l2).
Proof. intros [rest ->]. exists rest. apply app_assoc. Qed.

Lemma prefix_app_r {A : Type} (l1 l2 l3 : list A) :
  prefix l1 l2 -> prefix l1 (l2 ++ l3).
Proof. intros [rest ->]. exists (rest ++ l3). symmetry. apply app_assoc. Qed.

Lemma prefix_trans {A : Type} (l1 l2 l3 : list A) :
  prefix l1 l2 -> prefix l2 l3 -> prefix l1 l3.
Proof. intros [r1 ->] [r2 ->]. exists (r1 ++ r2). symmetry. apply app_assoc. Qed.

Lemma received_cons now c rest :
  received ((now, c) :: rest) = taken c ++ received rest.
Proof. destruct c; reflexivity. Qed.

(** A turn of the loop passes on what it holds or takes: nothing is made
    up, dropped or reordered while the loop goes on. *)
Lemma select_step_flow T l now c o :
  select_step T l now c = Some o ->
  match o with
  | Next l' sent => held_unit l ++ taken c = optlist sent ++ held_unit l'
  | Return _ sent => prefix (optlist sent) (held_unit l ++ taken c)
  | NilDereference sent => prefix (optlist sent) (held_unit l ++ taken c)
  end.
Proof.
  unfold held_unit.
  step_cases l c; intros Hs; inversion Hs; subst; cbn;
    try reflexivity; try apply prefix_refl; try apply prefix_nil.
Qed.

Lemma run_loop_order T schedule :
  forall l clock,
    prefix (fst (run_loop T l clock schedule))
           (held_unit l ++ received schedule) /\
    (forall l' clock',
        snd (run_loop T l clock schedule) = Running l' clock' ->
        held_unit l ++ received schedule
          = fst (run_loop T l clock schedule) ++ held_unit l').
Proof.
  induction schedule as [| [now c] rest IH]; intros l clock; cbn [run_loop].
  - split; [apply prefix_nil |]. cbn. intros l' clock' H. inversion H; subst.
    apply app_nil_r.
  - destruct (now <? clock);
      [split; [apply prefix_nil | discriminate] |].
    rewrite received_cons, app_assoc.
    destruct (select_step T l now c) as [o |] eqn:Hs;
      [| split; [apply prefix_nil | discriminate]].
    pose proof (select_step_flow _ _ _ _ _ Hs) as Hflow.
    destruct o as [l1 sent | why sent | sent].
    + rewrite Hflow. destruct (IH l1 now) as [Hp Hc].
      destruct (run_loop T l1 now rest) as [out s]. cbn [fst snd] in *.
      rewrite <- app_assoc.
      assert ((match sent with Some u => u :: out | None => out end)
              = optlist sent ++ out) as -> by (destruct sent; reflexivity).
      split; [apply prefix_app; exact Hp |].
      intros l' clock' Hrun. rewrite (Hc l' clock' Hrun).
      apply app_assoc.
    + split; [| discriminate]. apply prefix_app_r.
      destruct sent; exact Hflow.
    + split; [| discriminate]. apply prefix_app_r.
      destruct sent; exact Hflow.
Qed.

Lemma received_feed_decode D (Decode : D -> (Envelope + error) * D) schedule :
  forall d,
    received (feed Decode d schedule)
      = decodeEnvelopes Decode (receives schedule) d.
Proof.
  induction schedule as [| [now l] rest IH]; intros d; cbn [feed receives].
  - reflexivity.
  - destruct l; cbn [received decodeEnvelopes]; try apply IH.
    destruct (decodeEnvelopes_offer Decode d) as [u d'].
    cbn [received]. rewrite IH. reflexivity.
Qed.

(** X1. The units the envelope stream sends are, in the same order and
    unchanged, the first units its decoder offers: none is made up,
    skipped, repeated or reordered. While the stream runs, every unit
    taken from the decoder has been sent or is the one held ready. *)
Theorem X1_stream_keeps_order D (Decode : D -> (Envelope + error) * D)
    (body : D) T t0 schedule :
  prefix (fst (envelopeStream Decode body T t0 schedule))
         (decodeEnvelopes Decode (receives schedule) body) /\
  (forall l clock,
      snd (envelopeStream Decode body T t0 schedule) = Running l clock ->
      decodeEnvelopes Decode (receives schedule) body
        = fst (envelopeStream Decode body T t0 schedule) ++ held_unit l).
Proof.
  unfold envelopeStream.
  destruct (run_loop_order T (feed Decode body schedule)
              (loop_start T t0) t0) as [Hp Hc].
  rewrite received_feed_decode in Hp, Hc. cbn [held_unit loop_start
    envelopeReady app] in Hp, Hc.
  split; assumption.
Qed.

(** ** The envelope stream never times out early *)

Lemma heartbeats_cons now c rest :
  heartbeats ((now, c) :: rest)
    = match c with
      | RecvIn u => if isPing u then [now] else []
      | _ => []
      end ++ heartbeats rest.
Proof. destruct c as [| u | |]; try reflexivity. cbn. destruct (isPing u); reflexivity. Qed.

Lemma select_step_timer T l now c l' sent :
  select_step T l now c = Some (Next l' sent) ->
  deadlineCh l' = deadlineCh l \/
  (deadlineCh l <= now /\ now <= deadline l /\ deadlineCh l' = deadline l).
Proof.
  unfold select_step, Before, Add, Sub.
  destruct c as [| u | |]; destruct (envelopeReady l);
    repeat match goal with
      | |- context [match Err ?u with _ => _ end] => destruct (Err u)
      | |- context [match Env ?u with _ => _ end] => destruct (Env u)
      | |- context [if ?b then _ else _] => destruct b eqn:?
      end; intros Hs; inversion Hs; subst; cbn;
    try (left; reflexivity);
    right;
    repeat match goal with
      | H : (_ <=? _) = true |- _ => apply Z.leb_le in H
      | H : (_ <? _) = false |- _ => apply Z.ltb_ge in H
      end;
    repeat split; lia.
Qed.

(** While the stream runs, its deadline is not further than one timeout
    ahead, the timer is not armed for earlier than [base], and the
    deadline is not earlier than one timeout after any PING taken. *)
Lemma run_loop_bounds T base schedule :
  forall l clock past out l' clock',
    deadline l <= clock + T -> base <= deadlineCh l ->
    (forall t, In t past -> t + T <= deadline l) ->
    run_loop T l clock schedule = (out, Running l' clock') ->
    deadline l' <= clock' + T /\ base <= deadlineCh l' /\
    (forall t, In t (past ++ heartbeats schedule) -> t + T <= deadline l').
Proof.
  induction schedule as [| [now c] rest IH];
    intros l clock past out l' clock' Hd Hb Hp; cbn [run_loop].
  - intros H; inversion H; subst. rewrite app_nil_r. auto.
  - destruct (now <? clock) eqn:Hclk; [discriminate |].
    apply Z.ltb_ge in Hclk.
    destruct (select_step T l now c) as [[l1 sent | why sent | sent] |] eqn:Hs;
      try discriminate.
    destruct (run_loop T l1 now rest) as [out1 s] eqn:Hr.
    intros H; inversion H; subst.
    pose proof (select_step_deadline _ _ _ _ _ _ Hs) as Hdl.
    pose proof (select_step_timer _ _ _ _ _ _ Hs) as Hch.
    rewrite heartbeats_cons, app_assoc.
    apply (IH l1 now _ out1 l' clock'); [| | | exact Hr].
    + rewrite Hdl. destruct c as [| u | |]; try lia.
      destruct (isPing u); unfold Add; lia.
    + destruct Hch as [-> | [H1 [H2 ->]]]; lia.
    + intros t Hin. apply in_app_or in Hin. rewrite Hdl.
      destruct Hin as [Hin | Hin].
      * specialize (Hp t Hin). destruct c as [| u | |]; try lia.
        destruct (isPing u); unfold Add; lia.
      * destruct c as [| u | |]; try contradiction.
        destruct (isPing u); [| contradiction].
        destruct Hin as [<- | []]. unfold Add. lia.
Qed.

(** X2. The envelope stream returns at its deadline case only when at
    least the timeout has gone by since it started and more than the
    timeout since every PING-typed envelope it has taken; it sends nothing
    on that turn. *)
Theorem X2_no_early_timeout D (Decode : D -> (Envelope + error) * D)
    (body : D) T t0 schedule (now : Time) out l clock out' :
  0 <= T -> 0 < t0 ->
  envelopeStream Decode body T t0 schedule = (out, Running l clock) ->
  envelopeStream Decode body T t0 (schedule ++ [(now, LDeadline)])
    = (out', Exited ExitDeadline) ->
  out' = out /\
  Add t0 T <= now /\
  (forall t, In t (heartbeats (feed Decode body schedule)) -> Add t T < now).
Proof.
  intros HT Ht0 Hrun Hend.
  rewrite (envelopeStream_app _ _ _ _ _ _ _ _ _ _ Hrun) in Hend.
  cbn [feed run_loop] in Hend.
  destruct (now <? clock); [discriminate |].
  destruct (select_step T l now DeadlineTick)
    as [[l1 sent | why sent | sent] |] eqn:Hs; try discriminate.
  cbn [fst snd] in Hend. inversion Hend; subst why.
  destruct (select_step_exit_deadline _ _ _ _ _ Hs) as [_ Hlt].
  assert (deadlineCh l <= now) as Hfired.
  { revert Hs. unfold select_step.
    destruct (deadlineCh l <=? now) eqn:E; [| discriminate].
    intros _. apply Z.leb_le in E. exact E. }
  unfold envelopeStream in Hrun.
  destruct (run_loop_bounds T (Add t0 T) (feed Decode body schedule)
              (loop_start T t0) t0 [] out l clock) as [_ [Hb Hhb]];
    [cbn; unfold zeroTime, Add; lia | cbn; lia | intros t [] | exact Hrun |].
  split; [| split].
  - revert Hs H0. unfold select_step.
    destruct (deadlineCh l <=? now); [| discriminate].
    destruct (Before (deadline l) now); [| discriminate].
    intros Hs; inversion Hs; subst. cbn. intros <-. apply app_nil_r.
  - lia.
  - intros t Hin. specialize (Hhb t Hin). unfold Add. lia.
Qed.

Lemma X2_no_early_timeout_witness :
  [mkUnit (Some (envelopeOfType "DATA")) None; ping]
    = [mkUnit (Some (envelopeOfType "DATA")) None; ping] /\
  Add 100 10 <= 113 /\
  (forall t,
      In t (heartbeats
              (feed scriptedDecode
                 [Parsed (envelopeOfType "DATA"); Parsed (envelopeOfType "PING")]
                 [(101, LRecv); (101, LSend); (102, LRecv); (102, LSend)])) ->
      Add t 10 < 113).
Proof.
  refine (X2_no_early_timeout _ scriptedDecode
            [Parsed (envelopeOfType "DATA"); Parsed (envelopeOfType "PING")]
            10 100 [(101, LRecv); (101, LSend); (102, LRecv); (102, LSend)]
            113 _ _ _ _ _ _ eq_refl eq_refl); lia.
Defined.

(** ** The supervisors pass on every unit, in order *)

Lemma relay_cons now l rest : relay ((now, l) :: rest) = given l ++ relay rest.
Proof. destruct l as [| [| err] | | [u |] | |]; reflexivity. Qed.

Lemma parent_step_relay delay st now l st1 seen1 :
  ParentCtx.step delay st now l = Some (st1, seen1) -> l <> Done ->
  pending st ++ given l = emitted seen1 ++ pending st1.
Proof.
  intros Hs Hl.
  destruct st as [| | err | envelope [|] [|] | armed |];
    destruct l as [| [| err'] | | [u |] | |];
    cbn in Hs; try discriminate; try congruence;
    try (destruct (Add armed delay <=? now); [| discriminate]);
    inversion Hs; subst; reflexivity.
Qed.

Lemma subctx_step_relay delay st now l st1 seen1 :
  SubCtx.step delay st now l = Some (st1, seen1) -> l <> Done ->
  pending_subctx st ++ given l = emitted seen1 ++ pending_subctx st1.
Proof.
  intros Hs Hl.
  destruct st; destruct l as [| [| err'] | | [u |] | |]; cbn in Hs;
    try discriminate; try congruence;
    repeat match type of Hs with
      | context [if ?b then _ else _] => destruct b
      end;
    try discriminate; inversion Hs; subst; reflexivity.
Qed.

Section Relay.
Variable S : Type.
Variable step : S -> Time -> rlabel -> option (S * list obs).
Variable waiting : S -> list EnvelopeOrError.

Hypothesis step_relay :
  forall st now l st1 seen1,
    step st now l = Some (st1, seen1) -> l <> Done ->
    waiting st ++ given l = emitted seen1 ++ waiting st1.

Lemma execute_relay schedule :
  forall st clock st' clock' seen,
    (forall t, ~ In (t, Done) schedule) ->
    execute step st clock schedule = Some (st', clock', seen) ->
    waiting st ++ relay schedule = emitted seen ++ waiting st'.
Proof.
  induction schedule as [| [now l] rest IH];
    intros st clock st' clock' seen Hdone; cbn [execute].
  - intros H; inversion H; subst. cbn. apply app_nil_r.
  - destruct (now <? clock); [discriminate |].
    destruct (step st now l) as [[st1 seen1] |] eqn:Hs; [| discriminate].
    destruct (execute step st1 now rest) as [[[st2 clock2] seen2] |] eqn:He;
      [| discriminate].
    intros H; inversion H; subst.
    assert (l <> Done) as Hl
      by (intros ->; apply (Hdone now); left; reflexivity).
    assert (forall t, ~ In (t, Done) rest) as Hdone'
      by (intros t Hin; apply (Hdone t); right; exact Hin).
    rewrite relay_cons, app_assoc, (step_relay _ _ _ _ _ Hs Hl).
    rewrite <- app_assoc, (IH _ _ _ _ _ Hdone' He).
    rewrite emitted_app. apply app_assoc.
Qed.
End Relay.

(** X3. While its context is not done, a supervisor of either version
    sends, in order and unchanged, one "get stream" error unit for every
    failed call of the factory and every unit it receives from a source:
    all of them have been sent but the one it is about to send. *)
Theorem X3_supervisor_relays delay t0 schedule :
  (forall t, ~ In (t, Done) schedule) ->
  (forall st clock seen,
      reconnectStream delay t0 schedule = Some (st, clock, seen) ->
      relay schedule = emitted seen ++ pending st) /\
  (forall st clock seen,
      reconnectStream_subctx delay t0 schedule = Some (st, clock, seen) ->
      relay schedule = emitted seen ++ pending_subctx st).
Proof.
  intros Hdone. split; intros st clock seen Hrun.
  - exact (execute_relay _ (ParentCtx.step delay) pending
             (parent_step_relay delay) schedule _ _ _ _ _ Hdone Hrun).
  - exact (execute_relay _ (SubCtx.step delay) pending_subctx
             (subctx_step_relay delay) schedule _ _ _ _ _ Hdone Hrun).
Qed.

(** A failed attempt, then a source that delivers a PING and closes. *)
Lemma X3_supervisor_relays_witness :
  relay [(0, Call); (1, Factory (Failed (errorString "nope")));
         (2, OutSent); (7, TimerFired); (7, Call); (8, Factory Opened);
         (9, InRecv (Some ping)); (9, OutSent); (10, InRecv None)]
  = emitted [ObsCall 0 ParentContext;
             ObsEmit (getStreamError (errorString "nope"));
             ObsCall 7 ParentContext; ObsEmit ping]
    ++ pending (ParentCtx.Delay 10).
Proof.
  apply (proj1 (X3_supervisor_relays 5 0
                  [(0, Call); (1, Factory (Failed (errorString "nope")));
                   (2, OutSent); (7, TimerFired); (7, Call);
                   (8, Factory Opened); (9, InRecv (Some ping));
                   (9, OutSent); (10, InRecv None)]
                  ltac:(intros t Hin; cbn in Hin;
                        repeat (destruct Hin as [Hin | Hin];
                                [discriminate Hin |]); exact Hin))
           (ParentCtx.Delay 10) 10).
  reflexivity.
Defined.

(** ** The sub-context supervisor: contexts and the delay *)

Lemma uncancelled_app s1 s2 :
  uncancelled (s1 ++ s2) = uncancelled s1 + uncancelled s2.
Proof.
  induction s1 as [| o s1 IH]; cbn [app uncancelled]; [reflexivity |].
  destruct o; rewrite ?IH; lia.
Qed.

Lemma subctx_step_contexts delay st now l st1 seen1 :
  SubCtx.step delay st now l = Some (st1, seen1) ->
  in_attempt st + uncancelled seen1 = in_attempt st1.
Proof.
  intros Hs.
  destruct st; destruct l as [| [| err'] | | [u |] | |]; cbn in Hs;
    try discriminate;
    repeat match type of Hs with
      | context [if ?b then _ else _] => destruct b
      end;
    try discriminate; inversion Hs; subst; reflexivity.
Qed.

Lemma subctx_contexts delay schedule :
  forall st clock st' clock' seen,
    execute (SubCtx.step delay) st clock schedule = Some (st', clock', seen) ->
    in_attempt st + uncancelled seen = in_attempt st'.
Proof.
  induction schedule as [| [now l] rest IH];
    intros st clock st' clock' seen; cbn [execute].
  - intros H; inversion H; subst. cbn. lia.
  - destruct (now <? clock); [discriminate |].
    destruct (SubCtx.step delay st now l) as [[st1 seen1] |] eqn:Hs;
      [| discriminate].
    destruct (execute (SubCtx.step delay) st1 now rest)
      as [[[st2 clock2] seen2] |] eqn:He; [| discriminate].
    intros H; inversion H; subst. rewrite uncancelled_app.
    pose proof (subctx_step_contexts _ _ _ _ _ _ Hs).
    pose proof (IH _ _ _ _ _ He). lia.
Qed.

(** X4. The sub-context supervisor cancels the context of every attempt
    exactly once, when the attempt ends: in every execution the contexts
    made and not yet cancelled are one while an attempt is under way and
    none between attempts and after the supervisor has returned. *)
Theorem X4_subctx_cancels_contexts delay t0 schedule st clock seen :
  reconnectStream_subctx delay t0 schedule = Some (st, clock, seen) ->
  uncancelled seen = in_attempt st /\ 0 <= uncancelled seen <= 1.
Proof.
  intros Hrun. pose proof (subctx_contexts _ _ _ _ _ _ _ Hrun) as H.
  cbn [in_attempt] in H. split; [lia |].
  destruct st; cbn [in_attempt] in H; lia.
Qed.

Lemma X4_subctx_cancels_contexts_witness :
  uncancelled [ObsCall 0 StreamContext; ObsEmit ping; ObsCancel;
               ObsCall 4 StreamContext]
    = in_attempt SubCtx.Calling /\
  0 <= uncancelled [ObsCall 0 StreamContext; ObsEmit ping; ObsCancel;
                    ObsCall 4 StreamContext] <= 1.
Proof.
  exact (X4_subctx_cancels_contexts 5 0
           [(0, Call); (1, Factory Opened); (2, InRecv (Some ping));
            (3, OutSent); (4, InRecv None); (4, Call)]
           SubCtx.Calling 4 _ eq_refl).
Defined.

(** X5. In the sub-context supervisor a failed call of the factory is
    followed, before the next attempt, by the send of the "get stream"
    error unit and by a timer that fires [delay] or more after that send,
    and by nothing else. *)
Theorem X5_subctx_failed_then_delay delay err (t1 tr : Time)
    (mid : list (Time * rlabel)) (t2 : Time) st clock seen :
  execute (SubCtx.step delay) SubCtx.Calling t1
    ((tr, Factory (Failed err)) :: mid ++ [(t2, Call)])
    = Some (st, clock, seen) ->
  (forall t, ~ In (t, Call) mid) ->
  exists ts tf,
    mid = [(ts, OutSent); (tf, TimerFired)] /\
    tr <= ts /\ Add ts delay <= tf /\ tf <= t2 /\
    emitted seen =
      [mkUnit None (Some (errorString ("get stream: " ++ Error err)%string))].
Proof.
  intros Hrun Hcall. cbn [execute] in Hrun.
  destruct (tr <? t1); [discriminate |]. cbn [SubCtx.step] in Hrun.
  destruct mid as [| [ts l1] mid]; cbn [app execute] in Hrun.
  { destruct (t2 <? tr); discriminate. }
  destruct (ts <? tr) eqn:H1; [discriminate |]. apply Z.ltb_ge in H1.
  destruct l1; cbn [SubCtx.step SubCtx.stop] in Hrun; try discriminate.
  2: { destruct mid as [| [tx lx] mid]; cbn [app execute] in Hrun;
       [destruct (t2 <? ts) | destruct (tx <? ts)]; try discriminate;
       destruct lx; discriminate. }
  destruct mid as [| [tf l2] mid]; cbn [app execute] in Hrun.
  { destruct (t2 <? ts); discriminate. }
  destruct (tf <? ts) eqn:H2; [discriminate |]. apply Z.ltb_ge in H2.
  destruct l2; cbn [SubCtx.step SubCtx.stop] in Hrun; try discriminate.
  2: { destruct mid as [| [tx lx] mid]; cbn [app execute] in Hrun;
       [destruct (t2 <? tf) | destruct (tx <? tf)]; try discriminate;
       destruct lx; discriminate. }
  destruct (Add ts delay <=? tf) eqn:H3; [| discriminate].
  apply Z.leb_le in H3. unfold SubCtx.again in Hrun.
  destruct mid as [| [tx l3] mid]; cbn [app execute] in Hrun.
  - destruct (t2 <? tf) eqn:H4; [discriminate |]. apply Z.ltb_ge in H4.
    cbn in Hrun. inversion Hrun; subst.
    exists ts, tf. repeat split; auto.
  - destruct (tx <? tf); [discriminate |].
    destruct l3; cbn [SubCtx.step] in Hrun; try discriminate.
    exfalso. apply (Hcall tx). right; right; left; reflexivity.
Qed.

(** TestReconnectStreamDelay. *)
Lemma X5_subctx_failed_then_delay_witness :
  exists ts tf : Time,
    [(12, OutSent); (12 + Millisecond, TimerFired)]
      = [(ts, OutSent); (tf, TimerFired)] /\
    11 <= ts /\ Add ts Millisecond <= tf /\ tf <= 13 + Millisecond /\
    emitted [ObsEmit (getStreamError (errorString "first error"));
             ObsCancel; ObsCall (13 + Millisecond) StreamContext]
      = [mkUnit None (Some (errorString "get stream: first error"))].
Proof.
  apply (X5_subctx_failed_then_delay Millisecond (errorString "first error")
           10 11 [(12, OutSent); (12 + Millisecond, TimerFired)]
           (13 + Millisecond) SubCtx.Calling (13 + Millisecond)).
  - reflexivity.
  - intros t [H | [H | []]]; discriminate H.
Defined.

(** ** The stages of the first revision *)

Lemma sent_app s1 s2 :
  Filters.sent (s1 ++ s2) = Filters.sent s1 ++ Filters.sent s2.
Proof.
  induction s1 as [| o s1 IH]; cbn [app Filters.sent]; [reflexivity |].
  destruct o; rewrite ?IH; reflexivity.
Qed.

Lemma inputs_app s1 s2 :
  Filters.inputs (s1 ++ s2) = Filters.inputs s1 ++ Filters.inputs s2.
Proof.
  induction s1 as [| [t ev] s1 IH]; cbn [app Filters.inputs]; [reflexivity |].
  rewrite IH. apply app_assoc.
Qed.

Lemma run_app S (step : S -> Time -> Filters.event -> option (S * list Filters.effect))
    s1 s2 :
  forall st clock,
    Filters.run step st clock (s1 ++ s2) =
    match Filters.run step st clock s1 with
    | Some (st1, clock1, seen1) =>
        match Filters.run step st1 clock1 s2 with
        | Some (st2, clock2, seen2) => Some (st2, clock2, seen1 ++ seen2)
        | None => None
        end
    | None => None
    end.
Proof.
  induction s1 as [| [now ev] s1 IH]; intros st clock; cbn [app Filters.run].
  - destruct (Filters.run step st clock s2) as [[[st2 clock2] seen2] |];
      reflexivity.
  - destruct (now <? clock); [reflexivity |].
    destruct (step st now ev) as [[st1 eff] |]; [| reflexivity].
    rewrite IH.
    destruct (Filters.run step st1 now s1) as [[[st2 clock2] seen2] |];
      [| reflexivity].
    destruct (Filters.run step st2 clock2 s2) as [[[st3 clock3] seen3] |];
      [| reflexivity].
    rewrite app_assoc. reflexivity.
Qed.

Section Stage.
Variable S : Type.
Variable step : S -> Time -> Filters.event -> option (S * list Filters.effect).
Variable returned : S -> bool.

Hypothesis step_returned :
  forall st now ev, returned st = true -> step st now ev = None.

Lemma run_returned st clock schedule st' clock' seen :
  returned st = true ->
  Filters.run step st clock schedule = Some (st', clock', seen) ->
  schedule = [] /\ st' = st /\ seen = [].
Proof.
  intros Hr. destruct schedule as [| [now ev] rest]; cbn [Filters.run].
  - intros H; inversion H; auto.
  - destruct (now <? clock); [discriminate |].
    rewrite (step_returned _ now ev Hr). discriminate.
Qed.

Section Tidy.
Variable tail : list Filters.effect.

Hypothesis step_tidy :
  forall st now ev st1 eff,
    step st now ev = Some (st1, eff) ->
    eff = map Filters.Emit (Filters.sent eff)
            ++ (if returned st1 then tail else []).

Lemma run_tidy schedule :
  forall st clock st' clock' seen,
    returned st = false ->
    Filters.run step st clock schedule = Some (st', clock', seen) ->
    seen = map Filters.Emit (Filters.sent seen)
             ++ (if returned st' then tail else []).
Proof.
  induction schedule as [| [now ev] rest IH];
    intros st clock st' clock' seen Hr; cbn [Filters.run].
  - intros H; inversion H; subst. rewrite Hr. reflexivity.
  - destruct (now <? clock); [discriminate |].
    destruct (step st now ev) as [[st1 eff] |] eqn:Hs; [| discriminate].
    destruct (Filters.run step st1 now rest)
      as [[[st2 clock2] seen2] |] eqn:He; [| discriminate].
    intros H; inversion H; subst.
    pose proof (step_tidy _ _ _ _ _ Hs) as Ht.
    destruct (returned st1) eqn:Hr1.
    + destruct (run_returned _ _ _ _ _ _ Hr1 He) as [_ [-> ->]].
      rewrite app_nil_r, Hr1. exact Ht.
    + rewrite app_nil_r in Ht.
      pose proof (IH _ _ _ _ _ Hr1 He) as Hi.
      rewrite sent_app, map_app, <- app_assoc, <- Hi, <- Ht. reflexivity.
Qed.
End Tidy.

Section Flow.
Variable held : S -> list EnvelopeOrError.
Variable droppable : EnvelopeOrError -> Prop.

Hypothesis step_flow :
  forall st now ev st1 eff,
    step st now ev = Some (st1, eff) ->
    exists lost,
      held st ++ Filters.brought ev = Filters.sent eff ++ held st1 ++ lost /\
      (returned st1 = false -> lost = []) /\
      (ev <> Filters.Done ->
       lost = [] \/ exists u, droppable u /\ lost = [u]).

Lemma run_flow schedule :
  forall st clock st' clock' seen,
    Filters.run step st clock schedule = Some (st', clock', seen) ->
    exists lost,
      held st ++ Filters.inputs schedule
        = Filters.sent seen ++ held st' ++ lost /\
      (returned st' = false -> lost = []) /\
      ((forall t, ~ In (t, Filters.Done) schedule) ->
       lost = [] \/ exists u, droppable u /\ lost = [u]).
Proof.
  induction schedule as [| [now ev] rest IH];
    intros st clock st' clock' seen; cbn [Filters.run Filters.inputs].
  - intros H; inversion H; subst. exists []. cbn.
    rewrite !app_nil_r. auto.
  - destruct (now <? clock); [discriminate |].
    destruct (step st now ev) as [[st1 eff] |] eqn:Hs; [| discriminate].
    destruct (Filters.run step st1 now rest)
      as [[[st2 clock2] seen2] |] eqn:He; [| discriminate].
    intros H; inversion H; subst.
    destruct (step_flow _ _ _ _ _ Hs) as [lost1 [Heq [Hrun Hdrop]]].
    destruct (returned st1) eqn:Hr1.
    + destruct (run_returned _ _ _ _ _ _ Hr1 He) as [-> [-> ->]].
      exists lost1. cbn [Filters.inputs]. rewrite !app_nil_r.
      split; [exact Heq |]. split; [congruence |].
      intros Hdone. apply Hdrop. intros ->.
      apply (Hdone now). left; reflexivity.
    + rewrite (Hrun eq_refl), app_nil_r in Heq.
      destruct (IH _ _ _ _ _ He) as [lost2 [Heq2 [Hrun2 Hdrop2]]].
      exists lost2. split; [| split; [exact Hrun2 |]].
      * rewrite app_assoc, Heq, <- app_assoc, Heq2, sent_app.
        apply app_assoc.
      * intros Hdone. apply Hdrop2. intros t Hin.
        apply (Hdone t). right; exact Hin.
Qed.
End Flow.
End Stage.

Lemma pingFilter_returned timeout st now ev :
  Filters.pinging_returned st = true ->
  Filters.pingFilter_step timeout st now ev = None.
Proof. destruct st; [discriminate | discriminate |]. destruct ev; reflexivity. Qed.

Lemma endOfStreamFilter_returned st now ev :
  Filters.ending_returned st = true ->
  Filters.endOfStreamFilter_step st now ev = None.
Proof. destruct st; [discriminate | discriminate |]. destruct ev; reflexivity. Qed.

Lemma envelopeStream_returned D (Decode : D -> (Envelope + error) * D)
    st now ev :
  Filters.decoding_returned st = true ->
  Filters.envelopeStream_step Decode st now ev = None.
Proof. destruct st; try discriminate. destruct ev; reflexivity. Qed.

Ltac ping_cases st ev Hs :=
  destruct st as [[?armed ?gone] | ?msg [?armed ?gone] |];
  destruct ev as [| [?u |] | | | |];
  cbn in Hs; unfold Filters.expire in Hs; cbn in Hs;
  try discriminate;
  repeat match type of Hs with
    | context [if ?b then _ else _] => destruct b eqn:?
    end;
  try discriminate;
  inversion Hs; subst; clear Hs.

Lemma pingFilter_flow timeout st now ev st1 eff :
  Filters.pingFilter_step timeout st now ev = Some (st1, eff) ->
  exists lost,
    Filters.passing st ++ Filters.brought ev
      = Filters.sent eff ++ Filters.passing st1 ++ lost /\
    (Filters.pinging_returned st1 = false -> lost = []) /\
    (ev <> Filters.Done ->
     lost = [] \/ exists u, isPing u = true /\ lost = [u]).
Proof.
  intros Hs. ping_cases st ev Hs; cbn;
    try (exists []; repeat split; auto; fail);
    try (eexists; split; [reflexivity |]; split;
         [discriminate | intros _; right; eexists; split;
                         [eassumption | reflexivity]]; fail);
    try (eexists; split; [reflexivity |]; split;
         [discriminate | intros H; contradiction H; reflexivity]).
Qed.

(** X6. The ping filter of the first revision passes on every unit it
    receives, PING envelopes included, unchanged and in order. While it
    runs, all of them have been sent but the one it is sending; where it
    stops for another reason than its context, the only unit that can be
    lost is a PING received after the timer has fired. *)
Theorem X6_pingFilter_passes timeout t0 schedule st clock seen :
  Filters.pingFilter timeout t0 schedule = Some (st, clock, seen) ->
  prefix (Filters.sent seen) (Filters.inputs schedule) /\
  (st <> Filters.Stopped ->
   Filters.inputs schedule = Filters.sent seen ++ Filters.passing st) /\
  (st = Filters.Stopped ->
   (forall t, ~ In (t, Filters.Done) schedule) ->
   Filters.inputs schedule = Filters.sent seen \/
   exists u, isPing u = true /\
             Filters.inputs schedule = Filters.sent seen ++ [u]).
Proof.
  intros Hrun.
  destruct (run_flow _ (Filters.pingFilter_step timeout)
              Filters.pinging_returned (pingFilter_returned timeout)
              Filters.passing (fun u => isPing u = true)
              (pingFilter_flow timeout) schedule _ _ _ _ _ Hrun)
    as [lost [Heq [Hlive Hdrop]]].
  cbn [Filters.passing app] in Heq. repeat split.
  - exists (Filters.passing st ++ lost). exact Heq.
  - intros Hst. rewrite Heq, Hlive, app_nil_r; [reflexivity |].
    destruct st; [reflexivity | reflexivity | contradiction Hst; reflexivity].
  - intros -> Hdone. cbn [Filters.passing app] in Heq.
    destruct (Hdrop Hdone) as [-> | [u [Hu ->]]].
    + left. rewrite Heq. apply app_nil_r.
    + right. exists u. split; [exact Hu | exact Heq].
Qed.

(** A DATA envelope is passed on; the timer fires; the PING that comes
    after it is dropped and the filter stops. *)
Lemma X6_pingFilter_passes_witness :
  Filters.inputs
    [(1, Filters.Recv (Some (mkUnit (Some (envelopeOfType "DATA")) None)));
     (2, Filters.Sent); (15, Filters.Expire);
     (16, Filters.Recv (Some ping))]
  = Filters.sent [Filters.Emit (mkUnit (Some (envelopeOfType "DATA")) None);
                  Filters.CloseOut]
    \/ exists u, isPing u = true /\
         Filters.inputs
           [(1, Filters.Recv (Some (mkUnit (Some (envelopeOfType "DATA")) None)));
            (2, Filters.Sent); (15, Filters.Expire);
            (16, Filters.Recv (Some ping))]
         = Filters.sent [Filters.Emit (mkUnit (Some (envelopeOfType "DATA")) None);
                         Filters.CloseOut] ++ [u].
Proof.
  apply (proj2 (proj2 (X6_pingFilter_passes 10 0
           [(1, Filters.Recv (Some (mkUnit (Some (envelopeOfType "DATA")) None)));
            (2, Filters.Sent); (15, Filters.Expire);
            (16, Filters.Recv (Some ping))]
           Filters.Stopped 16 _ eq_refl)) eq_refl).
  intros t Hin. cbn in Hin.
  repeat (destruct Hin as [Hin | Hin]; [discriminate Hin |]). exact Hin.
Defined.

Lemma pingFilter_timer timeout schedule :
  forall st clock lows st' clock' seen,
    timer_inv timeout lows st clock ->
    Filters.run (Filters.pingFilter_step timeout) st clock schedule
      = Some (st', clock', seen) ->
    timer_inv timeout (lows ++ Filters.pings schedule) st' clock'.
Proof.
  induction schedule as [| [now ev] rest IH];
    intros st clock lows st' clock' seen Hinv; cbn [Filters.run].
  - intros H; inversion H; subst. cbn. rewrite app_nil_r. exact Hinv.
  - destruct (now <? clock) eqn:Hnow; [discriminate |].
    apply Z.ltb_ge in Hnow.
    destruct (Filters.pingFilter_step timeout st now ev)
      as [[st1 eff] |] eqn:Hs; [| discriminate].
    destruct (Filters.run (Filters.pingFilter_step timeout) st1 now rest)
      as [[[st2 clock2] seen2] |] eqn:He; [| discriminate].
    intros H; inversion H; subst.
    assert (exists extra,
               Filters.pings ((now, ev) :: rest) = extra ++ Filters.pings rest /\
               timer_inv timeout (lows ++ extra) st1 now) as [extra [-> Hinv1]].
    { destruct Hinv as [Hlows Htm].
      assert (forall t, In t lows -> t <= now) as Hlows'
        by (intros t Hin; specialize (Hlows t Hin); lia).
      assert (forall tm0,
                 (st = Filters.Waiting tm0 \/
                  exists msg, st = Filters.Passing msg tm0) ->
                 (forall t, In t lows -> Add t timeout <= Filters.when tm0) /\
                 (Filters.fired tm0 = true -> Filters.when tm0 <= now))
        as Htm'.
      { intros tm0 Hst. destruct (Htm tm0 Hst) as [Hl Hf].
        split; [exact Hl | intros Hfired; specialize (Hf Hfired); lia]. }
      clear Htm Hlows He H IH.
      destruct st as [[armed gone] | msg [armed gone] |];
        [destruct (Htm' _ (or_introl eq_refl)) as [Hl0 Hf0]
        | destruct (Htm' _ (or_intror (ex_intro _ msg eq_refl))) as [Hl0 Hf0]
        | destruct ev; discriminate Hs];
        clear Htm'; cbn [Filters.when Filters.fired] in Hl0, Hf0;
        destruct ev as [| [u |] | | | |];
        cbn in Hs; unfold Filters.expire in Hs; cbn in Hs;
        try discriminate;
        repeat match type of Hs with
          | context [if ?b then _ else _] => destruct b eqn:?
          end;
        try discriminate;
        inversion Hs; subst; clear Hs; cbn [Filters.pings];
        repeat match goal with
          | H : isPing ?u = _ |- context [isPing ?u] => rewrite H
          end;
        (exists [] + exists [now]); (split; [reflexivity |]);
        (split;
         [ intros t Hin; apply in_app_or in Hin;
           destruct Hin as [Hin | Hin];
           [exact (Hlows' t Hin) | cbn in Hin; intuition lia]
         | intros tm [Htmeq | [msg' Htmeq]];
           try discriminate Htmeq; inversion Htmeq; subst; clear Htmeq;
           cbn [Filters.when Filters.fired];
           (split;
           [ intros t Hin; apply in_app_or in Hin;
             destruct Hin as [Hin | Hin];
             [ first [exact (Hl0 t Hin)
                     | specialize (Hlows' t Hin); unfold Add; lia]
             | cbn in Hin;
               first [contradiction
                     | destruct Hin as [<- | []]; unfold Add; lia] ]
           | intros Hfired;
             first [ discriminate Hfired
                   | specialize (Hf0 Hfired); lia
                   | specialize (Hf0 eq_refl); lia
                   | match goal with
                     | Hb : _ && (_ <=? _) = true |- _ =>
                         apply andb_prop in Hb; destruct Hb as [_ Hle];
                         apply Z.leb_le in Hle; exact Hle
                     end ] ]) ]). }
    rewrite app_assoc. exact (IH _ _ _ _ _ _ Hinv1 He).
Qed.

(** X7. The ping filter of the first revision never gives up early: where
    it stops because of its timer (it takes the timer's tick, or it
    receives a PING and finds that the timer has fired), [timeout] or more
    has gone by since it started and since every PING it received. *)
Theorem X7_pingFilter_no_early_stop timeout t0 schedule (now : Time) ev
    clock seen :
  Filters.pingFilter timeout t0 (schedule ++ [(now, ev)])
    = Some (Filters.Stopped, clock, seen) ->
  ev = Filters.TimerC \/
  (exists u, ev = Filters.Recv (Some u) /\ isPing u = true) ->
  Add t0 timeout <= now /\
  forall t, In t (Filters.pings schedule) -> Add t timeout <= now.
Proof.
  unfold Filters.pingFilter. rewrite run_app.
  destruct (Filters.run (Filters.pingFilter_step timeout)
              (Filters.Waiting (Filters.mkTimer (Add t0 timeout) false))
              t0 schedule) as [[[st c1] seen1] |] eqn:Hrun; [| discriminate].
  assert (timer_inv timeout ([t0] ++ Filters.pings schedule) st c1)
    as [_ Htm].
  { apply (pingFilter_timer timeout schedule _ _ _ _ _ _ ) with (2 := Hrun).
    split.
    - intros t [<- | []]. lia.
    - intros tm [Htmeq | [msg Htmeq]]; [| discriminate Htmeq].
      inversion Htmeq; subst. cbn. split; [| discriminate].
      intros t [<- | []]. lia. }
  cbn [Filters.run].
  destruct (now <? c1) eqn:Hnow; [discriminate |]. apply Z.ltb_ge in Hnow.
  intros Hlast Hev.
  assert (exists tm, st = Filters.Waiting tm /\ Filters.fired tm = true)
    as [tm [-> Hfired]].
  { destruct Hev as [-> | [u [-> Hu]]];
      destruct st as [tm | msg tm |]; cbn in Hlast; try discriminate.
    - exists tm. split; [reflexivity |].
      destruct (Filters.fired tm); [reflexivity | discriminate].
    - exists tm. split; [reflexivity |]. rewrite Hu in Hlast.
      destruct (Filters.fired tm); [reflexivity | discriminate]. }
  destruct (Htm tm (or_introl eq_refl)) as [Hl Hf]. specialize (Hf Hfired).
  split.
  - specialize (Hl t0 (or_introl eq_refl)). lia.
  - intros t Hin. specialize (Hl t (or_intror Hin)). lia.
Qed.

(** TestPingFilterTimeout: a PING at 3 is passed on; the timer, set again
    for 13, fires and its tick is taken at 14. *)
Lemma X7_pingFilter_no_early_stop_witness :
  Add 0 10 <= 14 /\
  forall t,
    In t (Filters.pings [(3, Filters.Recv (Some ping)); (4, Filters.Sent);
                         (13, Filters.Expire)]) ->
    Add t 10 <= 14.
Proof.
  apply (X7_pingFilter_no_early_stop 10 0
           [(3, Filters.Recv (Some ping)); (4, Filters.Sent);
            (13, Filters.Expire)]
           14 Filters.TimerC 14 [Filters.Emit ping; Filters.CloseOut]).
  - reflexivity.
  - left. reflexivity.
Defined.

Lemma endOfStreamFilter_flow st now ev st1 eff :
  Filters.endOfStreamFilter_step st now ev = Some (st1, eff) ->
  exists lost,
    Filters.handing st ++ Filters.brought ev
      = Filters.sent eff ++ Filters.handing st1 ++ lost /\
    (Filters.ending_returned st1 = false -> lost = []) /\
    (ev <> Filters.Done -> lost = [] \/ exists u, False /\ lost = [u]).
Proof.
  intros Hs.
  destruct st as [| msg |]; destruct ev as [| [u |] | | | |];
    cbn in Hs; try discriminate;
    try (destruct (isType "END_OF_STREAM" msg));
    inversion Hs; subst; cbn;
    try (exists []; repeat split; auto; fail);
    eexists; (split; [reflexivity |]);
    (split; [discriminate | intros H; contradiction H; reflexivity]).
Qed.

Lemma endOfStreamFilter_last schedule :
  forall st clock st' clock' seen a u b,
    Filters.run Filters.endOfStreamFilter_step st clock schedule
      = Some (st', clock', seen) ->
    Filters.sent seen = a ++ u :: b ->
    isType "END_OF_STREAM" u = true ->
    b = [] /\ st' = Filters.Ended.
Proof.
  induction schedule as [| [now ev] rest IH];
    intros st clock st' clock' seen a u b; cbn [Filters.run].
  - intros H; inversion H; subst. cbn. intros Ha.
    destruct a; discriminate Ha.
  - destruct (now <? clock); [discriminate |].
    destruct (Filters.endOfStreamFilter_step st now ev)
      as [[st1 eff] |] eqn:Hs; [| discriminate].
    destruct (Filters.run Filters.endOfStreamFilter_step st1 now rest)
      as [[[st2 clock2] seen2] |] eqn:He; [| discriminate].
    intros H; inversion H; subst. rewrite sent_app.
    destruct st as [| msg |]; destruct ev as [| [u' |] | | | |];
      cbn in Hs; try discriminate;
      try (destruct (isType "END_OF_STREAM" msg) eqn:Hmsg);
      inversion Hs; subst; cbn [Filters.sent app];
      try (intros Ha Hu; exact (IH _ _ _ _ _ _ _ _ He Ha Hu)).
    + destruct (run_returned _ Filters.endOfStreamFilter_step
                  Filters.ending_returned endOfStreamFilter_returned
                  Filters.Ended _ _ _ _ _ eq_refl He) as [_ [-> ->]].
      cbn. intros Ha _.
      destruct a as [| x [| y a]]; inversion Ha; auto.
    + intros Ha Hu. destruct a as [| x a]; inversion Ha; subst.
      * congruence.
      * exact (IH _ _ _ _ _ _ _ _ He H2 Hu).
Qed.

(** X8. The end-of-stream filter of the first revision passes on every
    unit it receives, unchanged and in order, and loses one only when its
    context is done. An END_OF_STREAM envelope is the last unit it sends:
    after it the filter has closed its output. *)
Theorem X8_endOfStreamFilter_cuts t0 schedule st clock seen :
  Filters.endOfStreamFilter t0 schedule = Some (st, clock, seen) ->
  prefix (Filters.sent seen) (Filters.inputs schedule) /\
  ((forall t, ~ In (t, Filters.Done) schedule) ->
   Filters.inputs schedule = Filters.sent seen ++ Filters.handing st) /\
  (forall a u b,
      Filters.sent seen = a ++ u :: b ->
      isType "END_OF_STREAM" u = true ->
      b = [] /\ st = Filters.Ended).
Proof.
  intros Hrun.
  destruct (run_flow _ Filters.endOfStreamFilter_step
              Filters.ending_returned endOfStreamFilter_returned
              Filters.handing (fun _ => False)
              endOfStreamFilter_flow schedule _ _ _ _ _ Hrun)
    as [lost [Heq [_ Hdrop]]].
  cbn [Filters.handing app] in Heq. repeat split.
  - exists (Filters.handing st ++ lost). exact Heq.
  - intros Hdone. destruct (Hdrop Hdone) as [-> | [u [[] _]]].
    rewrite Heq, app_nil_r. reflexivity.
  - exact (proj1 (endOfStreamFilter_last schedule _ _ _ _ _ _ _ _
                    Hrun H H0)).
  - exact (proj2 (endOfStreamFilter_last schedule _ _ _ _ _ _ _ _
                    Hrun H H0)).
Qed.

(** TestEndOfStreamFilter: a DATA envelope, then END_OF_STREAM. *)
Lemma X8_endOfStreamFilter_cuts_witness :
  Filters.inputs
    [(1, Filters.Recv (Some (mkUnit (Some (envelopeOfType "DATA")) None)));
     (1, Filters.Sent);
     (2, Filters.Recv
           (Some (mkUnit (Some (envelopeOfType "END_OF_STREAM")) None)));
     (3, Filters.Sent)]
  = Filters.sent
      [Filters.Emit (mkUnit (Some (envelopeOfType "DATA")) None);
       Filters.Emit (mkUnit (Some (envelopeOfType "END_OF_STREAM")) None);
       Filters.CloseOut]
    ++ Filters.handing Filters.Ended.
Proof.
  apply (proj1 (proj2 (X8_endOfStreamFilter_cuts 0
           [(1, Filters.Recv (Some (mkUnit (Some (envelopeOfType "DATA")) None)));
            (1, Filters.Sent);
            (2, Filters.Recv
                  (Some (mkUnit (Some (envelopeOfType "END_OF_STREAM")) None)));
            (3, Filters.Sent)]
           Filters.Ended 3 _ eq_refl))).
  intros t Hin. cbn in Hin.
  repeat (destruct Hin as [Hin | Hin]; [discriminate Hin |]). exact Hin.
Defined.

Section FirstEnvelopeStream.
Variable D : Type.
Variable Decode : D -> (Envelope + error) * D.

Lemma envelopeStream_ahead schedule :
  forall st clock st' clock' seen,
    Filters.run (Filters.envelopeStream_step Decode) st clock schedule
      = Some (st', clock', seen) ->
    exists lost,
      Filters.ahead Decode st (Filters.reads schedule)
        = Filters.sent seen ++ Filters.ahead Decode st' 0 ++ lost /\
      ((forall t, ~ In (t, Filters.Done) schedule) -> lost = []).
Proof.
  induction schedule as [| [now ev] rest IH];
    intros st clock st' clock' seen; cbn [Filters.run].
  - intros H; inversion H; subst. exists []. cbn [Filters.reads Filters.sent app].
    rewrite app_nil_r. auto.
  - destruct (now <? clock); [discriminate |].
    destruct (Filters.envelopeStream_step Decode st now ev)
      as [[st1 eff] |] eqn:Hs; [| discriminate].
    destruct (Filters.run (Filters.envelopeStream_step Decode) st1 now rest)
      as [[[st2 clock2] seen2] |] eqn:He; [| discriminate].
    intros H; inversion H; subst. rewrite sent_app.
    destruct (IH _ _ _ _ _ He) as [lost2 [Heq2 Hdone2]].
    assert (forall t, ~ In (t, Filters.Done) ((now, ev) :: rest) ->
            ~ In (t, Filters.Done) rest) as Htl
      by (intros t Hn Hin; apply Hn; right; exact Hin).
    destruct st as [d | err | e d |]; destruct ev as [| [u |] | | | |];
      cbn in Hs; try discriminate; cbn [Filters.reads Filters.ahead].
    + cbn [Filters.decoded].
      destruct (Decode d) as [[e | [| msg]] d'];
        inversion Hs; subst; cbn [Filters.sent app Filters.ahead] in *.
      * exists lost2. split; [exact Heq2 |].
        intros Hd. apply Hdone2. intros t. apply Htl, Hd.
      * exists lost2. split; [exact Heq2 |].
        intros Hd. apply Hdone2. intros t. apply Htl, Hd.
      * exists lost2. split; [exact Heq2 |].
        intros Hd. apply Hdone2. intros t. apply Htl, Hd.
    + inversion Hs; subst. cbn [Filters.sent app Filters.ahead] in *.
      exists lost2. rewrite <- Heq2. split; [reflexivity |].
      intros Hd. apply Hdone2. intros t. apply Htl, Hd.
    + inversion Hs; subst. cbn [Filters.sent app Filters.ahead] in *.
      symmetry in Heq2. apply app_eq_nil in Heq2. destruct Heq2 as [-> Heq2].
      apply app_eq_nil in Heq2. destruct Heq2 as [-> ->].
      exists [Filters.decodeError err]. split; [reflexivity |].
      intros Hd. exfalso. apply (Hd now). left; reflexivity.
    + inversion Hs; subst. cbn [Filters.sent app Filters.ahead] in *.
      exists lost2. rewrite <- Heq2. split; [reflexivity |].
      intros Hd. apply Hdone2. intros t. apply Htl, Hd.
    + inversion Hs; subst. cbn [Filters.sent app Filters.ahead] in *.
      symmetry in Heq2. apply app_eq_nil in Heq2. destruct Heq2 as [-> Heq2].
      apply app_eq_nil in Heq2. destruct Heq2 as [-> ->].
      eexists. split; [reflexivity |].
      intros Hd. exfalso. apply (Hd now). left; reflexivity.
Qed.

Lemma decoded_shape n :
  forall d a u b,
    Filters.decoded Decode n d = a ++ u :: b ->
    exactly_one u /\
    (Env u = None ->
     b = [] /\
     exists err, err <> io_EOF /\
       Err u = Some (errorString ("decode envelope: " ++ Error err)%string)).
Proof.
  induction n as [| n IH]; intros d a u b; cbn [Filters.decoded].
  - intros H. destruct a; discriminate H.
  - destruct (Decode d) as [[e | [| msg]] d'].
    + destruct a as [| x a]; cbn [app]; intros H; inversion H; subst.
      * split; [left; cbn; split; congruence | cbn; discriminate].
      * exact (IH _ _ _ _ H2).
    + intros H. destruct a; discriminate H.
    + intros H. destruct a as [| x [| y a]]; inversion H; subst.
      split; [right; cbn; split; congruence |].
      intros _. split; [reflexivity |].
      exists (errorString msg). split; [discriminate | reflexivity].
Qed.
End FirstEnvelopeStream.

(** X9. The envelope stream of the first revision sends the envelopes of
    the body in order, each in a unit that holds the envelope alone, and
    stops at the first error of the decoder: an error that is not io.EOF
    gives one last unit, whose error reads "decode envelope: " and the
    decoder's text; io.EOF gives no unit. Nothing is lost unless the
    context is done. *)
Theorem X9_first_envelopeStream D (Decode : D -> (Envelope + error) * D)
    (body : D) t0 schedule st clock seen :
  Filters.envelopeStream Decode body t0 schedule = Some (st, clock, seen) ->
  prefix (Filters.sent seen)
         (Filters.decoded Decode (Filters.reads schedule) body) /\
  ((forall t, ~ In (t, Filters.Done) schedule) ->
   Filters.decoded Decode (Filters.reads schedule) body
     = Filters.sent seen ++ Filters.ahead Decode st 0) /\
  (forall a u b,
      Filters.sent seen = a ++ u :: b ->
      exactly_one u /\
      (Env u = None ->
       b = [] /\
       exists err, err <> io_EOF /\
         Err u = Some (errorString ("decode envelope: " ++ Error err)%string))).
Proof.
  intros Hrun.
  destruct (envelopeStream_ahead D Decode schedule _ _ _ _ _ Hrun)
    as [lost [Heq Hdone]].
  cbn [Filters.ahead] in Heq. split; [| split].
  - exists (Filters.ahead Decode st 0 ++ lost). exact Heq.
  - intros Hd. rewrite Heq, (Hdone Hd), app_nil_r. reflexivity.
  - intros a u b Hab. rewrite Hab, <- app_assoc in Heq. cbn [app] in Heq.
    destruct (decoded_shape D Decode _ _ _ _ _ Heq) as [Hone Herr].
    split; [exact Hone |]. intros Hnil.
    destruct (Herr Hnil) as [Hb Hex]. split; [| exact Hex].
    apply app_eq_nil in Hb. exact (proj1 Hb).
Qed.

(** TestEnvelopeStreamError: one envelope, then input that does not
    parse. *)
Lemma X9_first_envelopeStream_witness :
  Filters.decoded scriptedDecode 2
    [Parsed (envelopeOfType "DATA"); Malformed "invalid character"]
  = Filters.sent
      [Filters.Emit (mkUnit (Some (envelopeOfType "DATA")) None);
       Filters.Emit (Filters.decodeError (errorString "invalid character"));
       Filters.CloseBody; Filters.CloseOut]
    ++ Filters.ahead scriptedDecode Filters.Returned 0.
Proof.
  apply (proj1 (proj2 (X9_first_envelopeStream _ scriptedDecode
           [Parsed (envelopeOfType "DATA"); Malformed "invalid character"] 0
           [(1, Filters.Read); (1, Filters.Sent); (2, Filters.Read);
            (3, Filters.Sent)]
           Filters.Returned 3 _ eq_refl))).
  intros t Hin. cbn in Hin.
  repeat (destruct Hin as [Hin | Hin]; [discriminate Hin |]). exact Hin.
Defined.

Lemma envelopeStream_tidy D (Decode : D -> (Envelope + error) * D)
    st now ev st1 eff :
  Filters.envelopeStream_step Decode st now ev = Some (st1, eff) ->
  eff = map Filters.Emit (Filters.sent eff)
          ++ (if Filters.decoding_returned st1
              then [Filters.CloseBody; Filters.CloseOut] else []).
Proof.
  intros Hs.
  destruct st as [d | err | e d |]; destruct ev as [| [u |] | | | |];
    cbn in Hs; try discriminate;
    try (destruct (Decode d) as [[e' | [| msg]] d']);
    inversion Hs; subst; reflexivity.
Qed.

Lemma pingFilter_tidy timeout st now ev st1 eff :
  Filters.pingFilter_step timeout st now ev = Some (st1, eff) ->
  eff = map Filters.Emit (Filters.sent eff)
          ++ (if Filters.pinging_returned st1 then [Filters.CloseOut] else []).
Proof. intros Hs. ping_cases st ev Hs; reflexivity. Qed.

Lemma endOfStreamFilter_tidy st now ev st1 eff :
  Filters.endOfStreamFilter_step st now ev = Some (st1, eff) ->
  eff = map Filters.Emit (Filters.sent eff)
          ++ (if Filters.ending_returned st1 then [Filters.CloseOut] else []).
Proof.
  intros Hs.
  destruct st as [| msg |]; destruct ev as [| [u |] | | | |];
    cbn in Hs; try discriminate;
    try (destruct (isType "END_OF_STREAM" msg));
    inversion Hs; subst; reflexivity.
Qed.

(** X10. Each stage of the first revision closes its output once, as the
    last thing it does, and not before it returns; the envelope stream
    closes the body just before. So nothing is sent on a closed channel,
    and a consumer that sees the output of the envelope stream closed
    finds the body closed. *)
Theorem X10_stages_close_once :
  (forall D (Decode : D -> (Envelope + error) * D) body t0 schedule
          st clock seen,
      Filters.envelopeStream Decode body t0 schedule = Some (st, clock, seen) ->
      seen = map Filters.Emit (Filters.sent seen)
               ++ (if Filters.decoding_returned st
                   then [Filters.CloseBody; Filters.CloseOut] else [])) /\
  (forall timeout t0 schedule st clock seen,
      Filters.pingFilter timeout t0 schedule = Some (st, clock, seen) ->
      seen = map Filters.Emit (Filters.sent seen)
               ++ (if Filters.pinging_returned st
                   then [Filters.CloseOut] else [])) /\
  (forall t0 schedule st clock seen,
      Filters.endOfStreamFilter t0 schedule = Some (st, clock, seen) ->
      seen = map Filters.Emit (Filters.sent seen)
               ++ (if Filters.ending_returned st
                   then [Filters.CloseOut] else [])).
Proof.
  split; [| split].
  - intros D Decode body t0 schedule st clock seen Hrun.
    exact (run_tidy _ (Filters.envelopeStream_step Decode)
             Filters.decoding_returned (envelopeStream_returned D Decode)
             _ (envelopeStream_tidy D Decode) schedule
             (Filters.Decoding body) _ _ _ _ eq_refl Hrun).
  - intros timeout t0 schedule st clock seen Hrun.
    exact (run_tidy _ (Filters.pingFilter_step timeout)
             Filters.pinging_returned (pingFilter_returned timeout)
             _ (pingFilter_tidy timeout) schedule
             (Filters.Waiting (Filters.mkTimer (Add t0 timeout) false))
             _ _ _ _ eq_refl Hrun).
  - intros t0 schedule st clock seen Hrun.
    exact (run_tidy _ Filters.endOfStreamFilter_step
             Filters.ending_returned endOfStreamFilter_returned
             _ endOfStreamFilter_tidy schedule Filters.Listening
             _ _ _ _ eq_refl Hrun).
Qed.

(** ** Writing an envelope and reading it back *)

Section RoundTrip.
Variable EqualFold : string -> string -> bool.



End RoundTrip.



(** ** The addresses of the client *)







(** X13. A client made by [NewClient] has a group that is not empty, and
    none of its addresses panics: [urlMustParse] parses the URL that
    [NewClient] has parsed. *)
Theorem X13_client_never_panics (Parse : string -> URL + error)
    (ParseQuery : string -> Values) (Encode : Values -> string)
    (URLString : URL -> string) (H T : Type) (defaultRetryClient : H)
    (cfg : ClientConfig H T) (c : Client H T) :
  NewClient Parse defaultRetryClient cfg = inl c ->
  group c <> "" /\
  (forall topic r,
      receiveURL Parse ParseQuery Encode URLString
        (pipelineURL c) (group c) topic r <> None) /\
  (forall topic, sendURL Parse URLString (pipelineURL c) topic <> None) /\
  syncURL Parse URLString (pipelineURL c) (group c) <> None.
Proof.
  unfold NewClient.
  destruct (Parse (PipelineURL cfg)) as [u | err] eqn:Hu; [| discriminate].
  destruct (String.eqb_spec (Group cfg) "") as [| Hg]; [discriminate |].
  destruct (TokenGetter cfg) as [getter |]; [| discriminate].
  intros H0; inversion H0; subst; clear H0. cbn [group pipelineURL].
  unfold receiveURL, receiveAddress, sendURL, sendAddress, syncURL,
    syncAddress, urlMustParse. rewrite Hu.
  repeat split; try exact Hg; intros; discriminate.
Qed.

Lemma X13_client_never_panics_witness :
  "g" <> "" /\
  (forall topic r,
      receiveURL parseExample (fun _ => []) (fun _ => "") Host
        "www.acme.com" "g" topic r <> None) /\
  (forall topic, sendURL parseExample Host "www.acme.com" topic <> None) /\
  syncURL parseExample Host "www.acme.com" "g" <> None.
Proof.
  exact (X13_client_never_panics parseExample (fun _ => []) (fun _ => "")
           Host unit unit tt
           (mkClientConfig None "www.acme.com" "g" (Some tt))
           (mkClient tt "www.acme.com" "g" tt) eq_refl).
Defined.

(** ** The requests of the client *)

Ltac crack :=
  unfold andThen, wrap, must, tell, defer, ret;
  repeat (cbn [fst snd];
          match goal with
          | |- context [match ?x with _ => _ end] =>
              lazymatch x with
              | context [match _ with _ => _ end] => fail
              | _ => destruct x eqn:?
              end
          end);
  cbn beta iota; cbn [app fst snd].

Ltac status_clash :=
  match goal with
  | Hb : (_ =? _) = false |- _ => apply Z.eqb_neq in Hb; contradiction
  end.

Ltac status_nil :=
  split;
  [ intros Hx;
    first [ discriminate Hx
          | eexists; split; [reflexivity | apply Z.eqb_eq; assumption] ]
  | intros [res [Hl Hs]];
    first [ discriminate Hl | reflexivity
          | inversion Hl; subst; status_clash ] ].

Ltac status_body :=
  split;
  [ intros [body Hx];
    first [ discriminate Hx
          | eexists; split; [reflexivity | apply Z.eqb_eq; assumption] ]
  | intros [res [Hl Hs]];
    first [ discriminate Hl | eexists; reflexivity
          | inversion Hl; subst; status_clash ] ].

Ltac status_error :=
  intros pipelineError Hx;
  first [ discriminate Hx
        | inversion Hx as [Hn]; unfold Errors.newError in Hn;
          match type of Hn with
          | context [bind ?a ?f] => destruct (bind a f)
          end;
          inversion Hn; subst;
          eexists; split;
          [ reflexivity
          | split; [apply Z.eqb_neq; assumption | reflexivity] ] ].

Section RequestProperties.
Variables H T B R : Type.
Variable w : environment H T B R.

Ltac answer :=
  cbn [answered performed flat_map app calls filter isCall List.length
       closedLast];
  repeat match goal with
    | Hdo : _ = inl _ |- _ => rewrite Hdo
    | Hdo : _ = inr _ |- _ => rewrite Hdo
    end;
  cbn [app].

(** X14. Every request the client performs carries the token the getter
    has just returned, as [Authorization: Bearer <token>]: without a token
    no request is sent. A function of the client performs one request at
    most, with the method and the body of its kind. *)
Theorem X14_requests_carry_token (c : Client H T) :
  (forall marker req,
      In req (performed (fst (Sync w c marker))) ->
      performed (fst (Sync w c marker)) = [req] /\
      Method req = "POST" /\ Payload req = Text marker /\
      exists token,
        Token w (tokenGetter c) = inl token /\
        headerGet req "Authorization" = Some ("Bearer " ++ token)%string) /\
  (forall topic sendRequest req,
      In req (performed (fst (Send w c topic sendRequest))) ->
      performed (fst (Send w c topic sendRequest)) = [req] /\
      Method req = "POST" /\
      Payload req = JSON (marshalSendRequest sendRequest) /\
      headerGet req "Content-Type" = Some "application/vnd.pipe.json.v1+json" /\
      exists token,
        Token w (tokenGetter c) = inl token /\
        headerGet req "Authorization" = Some ("Bearer " ++ token)%string) /\
  (forall topic r req,
      In req (performed (fst (receive w c topic r))) ->
      performed (fst (receive w c topic r)) = [req] /\
      Method req = "GET" /\ Payload req = NoBody /\
      headerGet req "Accept" = Some "application/json" /\
      exists token,
        Token w (tokenGetter c) = inl token /\
        headerGet req "Authorization" = Some ("Bearer " ++ token)%string).
Proof.
  split; [| split].
  - intros marker req.
    unfold Sync, getToken, perform, returnNewError, NewRequestWithContext.
    crack; cbn [performed]; intros Hin;
      try contradiction; destruct Hin as [<- | []];
      (split; [reflexivity |]); cbn [Method Payload headerSet];
      (split; [reflexivity |]); (split; [reflexivity |]);
      eexists; (split; [reflexivity |]); reflexivity.
  - intros topic sendRequest req.
    unfold Send, getToken, perform, returnNewError, NewRequestWithContext.
    crack; cbn [performed]; intros Hin;
      try contradiction; destruct Hin as [<- | []];
      (split; [reflexivity |]); cbn [Method Payload headerSet];
      (split; [reflexivity |]); (split; [reflexivity |]);
      (split; [reflexivity |]);
      eexists; (split; [reflexivity |]); reflexivity.
  - intros topic r req.
    unfold receive, getToken, perform, NewRequestWithContext.
    crack; cbn [performed]; intros Hin;
      try contradiction; destruct Hin as [<- | []];
      (split; [reflexivity |]); cbn [Method Payload headerSet];
      (split; [reflexivity |]); (split; [reflexivity |]);
      (split; [reflexivity |]);
      eexists; (split; [reflexivity |]); reflexivity.
Qed.
(** X15. No response body is left open and none is closed twice: [Sync]
    and [Send] close the body of every response they get, once, as the last
    thing they do; [receive] does the same when it returns an error, and
    when it returns a body, that is the body of the one response, not
    closed. *)
Theorem X15_bodies_closed (c : Client H T) :
  (forall marker,
      calls CloseBody (fst (Sync w c marker))
        = List.length (answered (Do w) (client c) (fst (Sync w c marker))) /\
      closedLast (fst (Sync w c marker)) = true) /\
  (forall topic sendRequest,
      calls CloseBody (fst (Send w c topic sendRequest))
        = List.length (answered (Do w) (client c) (fst (Send w c topic sendRequest))) /\
      closedLast (fst (Send w c topic sendRequest)) = true) /\
  (forall topic r,
      match snd (receive w c topic r) with
      | inl body =>
          calls CloseBody (fst (receive w c topic r)) = O /\
          exists res,
            answered (Do w) (client c) (fst (receive w c topic r)) = [res] /\ body = Body res
      | inr _ =>
          calls CloseBody (fst (receive w c topic r))
            = List.length (answered (Do w) (client c) (fst (receive w c topic r))) /\
          closedLast (fst (receive w c topic r)) = true
      end).
Proof.
  split; [| split].
  - intros marker.
    unfold Sync, getToken, perform, returnNewError, NewRequestWithContext.
    crack; answer; split; reflexivity.
  - intros topic sendRequest.
    unfold Send, getToken, perform, returnNewError, NewRequestWithContext.
    crack; answer; split; reflexivity.
  - intros topic r.
    unfold receive, getToken, perform, NewRequestWithContext.
    crack; answer; (split; [reflexivity |]);
      first [reflexivity | eexists; split; reflexivity].
Qed.

(** X16. The status of the response decides: [Sync] returns nil exactly
    when the one response it got has status 204, [Send] when it has status
    200, and [receive] returns a body exactly when it has status 200. An
    [*Error] that they return has the status of the response as its
    [StatusCode], whatever the body of the response says. In [receive], an
    error of closing the body takes the place of the error of the
    server. *)
Theorem X16_status_decides (c : Client H T) :
  (forall marker,
      (snd (Sync w c marker) = inl tt <->
       exists res,
         answered (Do w) (client c) (fst (Sync w c marker)) = [res] /\ StatusCode res = 204) /\
      (forall e,
          snd (Sync w c marker) = inr (Fails (Errors.Pipeline e)) ->
          exists res,
            answered (Do w) (client c) (fst (Sync w c marker)) = [res] /\
            StatusCode res <> 204 /\
            Errors.StatusCode e = StatusCode res)) /\
  (forall topic sendRequest,
      (snd (Send w c topic sendRequest) = inl tt <->
       exists res,
         answered (Do w) (client c) (fst (Send w c topic sendRequest)) = [res] /\ StatusCode res = 200) /\
      (forall e,
          snd (Send w c topic sendRequest) = inr (Fails (Errors.Pipeline e)) ->
          exists res,
            answered (Do w) (client c) (fst (Send w c topic sendRequest)) = [res] /\
            StatusCode res <> 200 /\
            Errors.StatusCode e = StatusCode res)) /\
  (forall topic r,
      ((exists body, snd (receive w c topic r) = inl body) <->
       exists res,
         answered (Do w) (client c) (fst (receive w c topic r)) = [res] /\ StatusCode res = 200) /\
      (forall e,
          snd (receive w c topic r) = inr (Fails (Errors.Pipeline e)) ->
          exists res,
            answered (Do w) (client c) (fst (receive w c topic r)) = [res] /\
            StatusCode res <> 200 /\
            Errors.StatusCode e = StatusCode res) /\
      (forall res cerr,
          answered (Do w) (client c) (fst (receive w c topic r)) = [res] ->
          StatusCode res <> 200 ->
          closeError w (Body res) = Some cerr ->
          snd (receive w c topic r)
            = inr (Fails (Errors.Plain (Errorf "close response body" cerr))))).
Proof.
  split; [| split].
  - intros marker.
    unfold Sync, getToken, perform, returnNewError, NewRequestWithContext.
    crack; answer; (split; [status_nil | status_error]).
  - intros topic sendRequest.
    unfold Send, getToken, perform, returnNewError, NewRequestWithContext.
    crack; answer; (split; [status_nil | status_error]).
  - intros topic r.
    unfold receive, getToken, perform, NewRequestWithContext.
    crack; answer; (split; [status_body | split; [status_error |]]);
      intros res cerr Hl Hs Hc; try discriminate Hl;
      inversion Hl; subst;
      try match goal with
        | Hb : (_ =? _) = true |- _ => apply Z.eqb_eq in Hb; contradiction
        end;
      congruence.
Qed.
End RequestProperties.

(** TestSync: the request of [Sync] against a server that answers 204. *)
Lemma X14_requests_carry_token_witness :
  exists token,
    Token (exampleEnvironment 204 JNull None) tt = inl token /\
    headerGet
      (mkRequest "POST" "www.acme.com"
         [("Authorization", "Bearer token")] (Text "marker"))
      "Authorization" = Some ("Bearer " ++ token)%string.
Proof.
  destruct (proj1 (X14_requests_carry_token unit unit unit unit
                     (exampleEnvironment 204 JNull None)
                     (mkClient tt "www.acme.com" "g" tt))
              "marker"
              (mkRequest "POST" "www.acme.com"
                 [("Authorization", "Bearer token")] (Text "marker"))
              (or_introl eq_refl)) as [_ [_ [_ Htoken]]].
  exact Htoken.
Defined.

(** TestSyncError, with a body that names a status code of its own: the
    error has the status of the response. *)
Lemma X16_status_decides_witness :
  exists res : Response unit,
    answered (Do (exampleEnvironment 500
                    (JObject [("title", JString "nope");
                              ("StatusCode", JNumber (IntLit 999))]) None))
      tt
      (fst (Sync (exampleEnvironment 500
                    (JObject [("title", JString "nope");
                              ("StatusCode", JNumber (IntLit 999))]) None)
              (mkClient tt "www.acme.com" "g" tt) "marker")) = [res] /\
    StatusCode res <> 204 /\
    Errors.StatusCode (Errors.mkError 500 0 "nope" tt) = StatusCode res.
Proof.
  exact (proj2 (proj1 (X16_status_decides unit unit unit unit
                         (exampleEnvironment 500
                            (JObject [("title", JString "nope");
                                      ("StatusCode", JNumber (IntLit 999))])
                            None)
                         (mkClient tt "www.acme.com" "g" tt)) "marker")
           (Errors.mkError 500 0 "nope" tt) eq_refl).
Defined.

(** ** The supervisors close their output when the context is done *)

Lemma closed_last_app eff seen :
  ~ In ObsClose eff -> closed_last (eff ++ seen) = closed_last seen.
Proof.
  induction eff as [| o eff IH]; cbn [app]; intros Hn; [reflexivity |].
  destruct o; cbn [closed_last];
    try (apply IH; intros Hin; apply Hn; right; exact Hin).
  exfalso. apply Hn. left; reflexivity.
Qed.

Section Closing.
Variable S : Type.
Variable step : S -> Time -> rlabel -> option (S * list obs).
Variable closed : S -> bool.

Hypothesis step_closed :
  forall st now l, closed st = true -> step st now l = None.

Hypothesis step_close :
  forall st now l st1 eff,
    step st now l = Some (st1, eff) ->
    if closed st1
    then l = Done /\ closed_last eff = true /\ In ObsClose eff
    else ~ In ObsClose eff.

Lemma execute_closing schedule :
  forall st clock st' clock' seen,
    closed st = false ->
    execute step st clock schedule = Some (st', clock', seen) ->
    closed_last seen = true /\
    (In ObsClose seen <-> closed st' = true) /\
    (In ObsClose seen -> exists t, In (t, Done) schedule).
Proof.
  induction schedule as [| [now l] rest IH];
    intros st clock st' clock' seen Hst; cbn [execute].
  - intros H; inversion H; subst. cbn. rewrite Hst.
    split; [reflexivity |]. split; [| intros []].
    split; [intros [] | discriminate].
  - destruct (now <? clock); [discriminate |].
    destruct (step st now l) as [[st1 eff] |] eqn:Hs; [| discriminate].
    destruct (execute step st1 now rest)
      as [[[st2 clock2] seen2] |] eqn:He; [| discriminate].
    intros H; inversion H; subst.
    pose proof (step_close _ _ _ _ _ Hs) as Hc.
    destruct (closed st1) eqn:Hst1.
    + destruct Hc as [-> [Hlast Hin]].
      destruct rest as [| [now' l'] rest]; cbn [execute] in He.
      * inversion He; subst. rewrite app_nil_r, Hst1.
        split; [exact Hlast |]. split; [tauto |].
        intros _. eexists. left; reflexivity.
      * destruct (now' <? now); [discriminate |].
        rewrite (step_closed _ now' l' Hst1) in He. discriminate.
    + destruct (IH _ _ _ _ _ Hst1 He) as [Hlast [Hiff Hdone]].
      rewrite (closed_last_app _ _ Hc). split; [exact Hlast |].
      split; [split |].
      * intros Hin. apply in_app_or in Hin.
        destruct Hin as [Hin | Hin]; [contradiction | apply Hiff, Hin].
      * intros Hcl. apply in_or_app. right. apply Hiff, Hcl.
      * intros Hin. apply in_app_or in Hin.
        destruct Hin as [Hin | Hin]; [contradiction |].
        destruct (Hdone Hin) as [t Ht]. exists t. right; exact Ht.
Qed.
End Closing.

Lemma parent_step_closed delay st now l :
  parent_closed st = true -> ParentCtx.step delay st now l = None.
Proof. destruct st; try discriminate. destruct l; reflexivity. Qed.

Lemma subctx_step_closed delay st now l :
  subctx_closed st = true -> SubCtx.step delay st now l = None.
Proof. destruct st; try discriminate. destruct l; reflexivity. Qed.

Ltac not_closed :=
  cbn; intros Hin;
  repeat (destruct Hin as [Hin | Hin]; [discriminate Hin |]); exact Hin.

Lemma parent_step_close delay st now l st1 eff :
  ParentCtx.step delay st now l = Some (st1, eff) ->
  if parent_closed st1
  then l = Done /\ closed_last eff = true /\ In ObsClose eff
  else ~ In ObsClose eff.
Proof.
  intros Hs. parent_cases st l Hs; cbn [parent_closed];
    first [ not_closed
          | split; [reflexivity | split; [reflexivity | left; reflexivity]] ].
Qed.

Lemma subctx_step_close delay st now l st1 eff :
  SubCtx.step delay st now l = Some (st1, eff) ->
  if subctx_closed st1
  then l = Done /\ closed_last eff = true /\ In ObsClose eff
  else ~ In ObsClose eff.
Proof.
  intros Hs.
  destruct st; destruct l as [| [| err'] | | [u |] | |]; cbn in Hs;
    try discriminate;
    repeat match type of Hs with
      | context [if ?b then _ else _] => destruct b
      end;
    try discriminate; inversion Hs; subst; cbn [subctx_closed];
    first [ not_closed
          | split; [reflexivity
                   | split; [reflexivity | right; left; reflexivity]] ].
Qed.

(** X17. Both revisions of reconnectStream close their output once, as
    the last thing they do, and only after taking [ctx.Done()]: a source
    that fails or closes never closes the output, and nothing is sent on
    the output after it is closed. *)
Theorem X17_supervisor_closes_on_done delay t0 schedule :
  (forall st clock seen,
      reconnectStream delay t0 schedule = Some (st, clock, seen) ->
      closed_last seen = true /\
      (In ObsClose seen <-> st = ParentCtx.Closed) /\
      (In ObsClose seen -> exists t, In (t, Done) schedule)) /\
  (forall st clock seen,
      reconnectStream_subctx delay t0 schedule = Some (st, clock, seen) ->
      closed_last seen = true /\
      (In ObsClose seen <-> st = SubCtx.Closed) /\
      (In ObsClose seen -> exists t, In (t, Done) schedule)).
Proof.
  split; intros st clock seen Hrun.
  - destruct (execute_closing _ (ParentCtx.step delay) parent_closed
                (parent_step_closed delay) (parent_step_close delay)
                schedule ParentCtx.Connecting _ _ _ _ eq_refl Hrun)
      as [Hlast [Hiff Hdone]].
    split; [exact Hlast |]. split; [| exact Hdone].
    rewrite Hiff. destruct st; cbn; split; congruence.
  - destruct (execute_closing _ (SubCtx.step delay) subctx_closed
                (subctx_step_closed delay) (subctx_step_close delay)
                schedule SubCtx.Connecting _ _ _ _ eq_refl Hrun)
      as [Hlast [Hiff Hdone]].
    split; [exact Hlast |]. split; [| exact Hdone].
    rewrite Hiff. destruct st; cbn; split; congruence.
Qed.
